(** * Pipeline: specification expansion and stage execution

    A shallow embedding of [src/pipeline.py] (class [Pipeline]): the
    expansion of a specification into its option-free combinations
    ([__assemble]), the flattening of one combination into a stage list
    ([__construct], [__flatten_nested_list]), the execution of a stage
    list against a dictionary of sinks ([__run_pipeline]), the driver
    ([transform]) and the post-processing helper ([filter_results]).

    Python values are a closed universe: [None], integers, strings,
    callables (named, their behaviour a parameter of the executor),
    tuples, lists and dictionaries. A dictionary is an association list:
    its order stands for the iteration order of the dictionary, a key that
    is stored for the first time comes last, and its keys are pairwise
    distinct ([wf]). The order of a dictionary that the code builds is
    therefore the one of the model, not the order of the hash table of
    Python 2: the statements about such dictionaries are by keys and
    lookups, and an equality of dictionaries stands for the [==] of
    Python, which ignores the order.
    Callables are functions of their arguments: they
    return a value or raise an exception, and change nothing. *)

From Stdlib Require Import String Ascii.
From Stdlib Require Import List ZArith Bool Arith Lia.
Import ListNotations.

Local Open Scope string_scope.
Local Open Scope list_scope.

Set Implicit Arguments.

(** ** Values *)

Unset Elimination Schemes.

(** Hashable values, the keys of dictionaries. *)
Inductive key : Type :=
| KNone
| KInt (z : Z)
| KStr (s : string)
| KFun (f : string)
| KTuple (ks : list key).

Definition dict (A : Type) : Type := list (key * A).

Inductive value : Type :=
| VNone
| VInt (z : Z)
| VStr (s : string)
| VFun (f : string)
| VTuple (l : list value)
| VList (l : list value)
| VDict (d : list (key * value)).

Set Elimination Schemes.

Fixpoint key_eqb (a b : key) {struct a} : bool :=
  match a, b with
  | KNone, KNone => true
  | KInt x, KInt y => Z.eqb x y
  | KStr x, KStr y => String.eqb x y
  | KFun x, KFun y => String.eqb x y
  | KTuple xs, KTuple ys =>
      (fix go (xs ys : list key) {struct xs} : bool :=
         match xs, ys with
         | [], [] => true
         | x :: xs', y :: ys' => key_eqb x y && go xs' ys'
         | _, _ => false
         end) xs ys
  | _, _ => false
  end.

(** [hash(v)]: the key a value stands for, [None] when it is unhashable
    (a list, a dictionary, or a tuple holding one). *)
Fixpoint to_key (v : value) : option key :=
  match v with
  | VNone => Some KNone
  | VInt z => Some (KInt z)
  | VStr s => Some (KStr s)
  | VFun f => Some (KFun f)
  | VTuple l =>
      option_map KTuple
        ((fix go (l : list value) : option (list key) :=
            match l with
            | [] => Some []
            | x :: r =>
                match to_key x, go r with
                | Some k, Some ks => Some (k :: ks)
                | _, _ => None
                end
            end) l)
  | VList _ | VDict _ => None
  end.

Fixpoint of_key (k : key) : value :=
  match k with
  | KNone => VNone
  | KInt z => VInt z
  | KStr s => VStr s
  | KFun f => VFun f
  | KTuple ks => VTuple (map of_key ks)
  end.

(** ** Dictionaries *)

Section Dict.
Variable A : Type.

(** [d[k]], [None] standing for the [KeyError]. *)
Fixpoint lookup (k : key) (d : dict A) : option A :=
  match d with
  | [] => None
  | (k', v) :: r => if key_eqb k k' then Some v else lookup k r
  end.

(** [d[k] = v]: an existing key keeps its place, a new key comes last. *)
Fixpoint dict_set (d : dict A) (k : key) (v : A) : dict A :=
  match d with
  | [] => [(k, v)]
  | (k', v') :: r =>
      if key_eqb k k' then (k', v) :: r else (k', v') :: dict_set r k v
  end.

Definition keys (d : dict A) : list key := map fst d.
Definition values (d : dict A) : list A := map snd d.

(** [dict(pairs)]: the pairs are stored one after the other. *)
Definition dict_of_list (pairs : list (key * A)) : dict A :=
  fold_left (fun d kv => dict_set d (fst kv) (snd kv)) pairs [].

Definition has_key (k : key) (d : dict A) : bool :=
  existsb (key_eqb k) (keys d).
End Dict.

(** No key occurs twice. *)
Fixpoint distinct (ks : list key) : bool :=
  match ks with
  | [] => true
  | k :: r => negb (existsb (key_eqb k) r) && distinct r
  end.

Arguments lookup {A} k d.
Arguments dict_set {A} d k v.
Arguments keys {A} d.
Arguments values {A} d.
Arguments dict_of_list {A} pairs.
Arguments has_key {A} k d.

(** ** Expansion *)

(** [itertools.product] over a list of pools, after the equivalent code of
    its documentation: [result = [[]]], then for each pool
    [result = [x + [y] for x in result for y in pool]]. *)
Definition product (A : Type) (pools : list (list A)) : list (list A) :=
  fold_left
    (fun result pool => flat_map (fun x => map (fun y => x ++ [y]) pool) result)
    pools [[]].

(** [Pipeline.__assemble]. The loop [for key in specification] visits the
    entries of the dictionary in iteration order and reads
    [specification[key]], the value of that entry. In the mapping branch
    the order of the entries of [ret] and of every combination is the one
    of the model (a new key comes last); Python 2 iterates these
    dictionaries in the order of their hash tables, which may be another
    one: of a combination that is a dictionary, only its keys and the
    value under each key are meant, not the order of its entries. *)
Fixpoint assemble (specification : value) : list value :=
  match specification with
  | VTuple l => concat (map assemble l)
  | VDict d =>
      let ret :=
        fold_left (fun ret kv => dict_set ret (fst kv) (assemble (snd kv))) d []
      in
      map (fun item => VDict (dict_of_list (combine (keys ret) item)))
          (product (values ret))
  | VList l => map (fun item => VList item) (product (map assemble l))
  | _ => [specification]
  end.

(** ** Exceptions and results *)

(** The exceptions the methods raise themselves ([KeyError], [IndexError],
    [TypeError], as the interpreter raises them: their text is ASCII),
    and what a stage function may raise: [StageError] stands for an
    exception whose class derives from [Exception] and whose text can be
    printed, [Unprintable] for one whose class derives from [Exception]
    and whose printing raises [raised] (the [UnicodeEncodeError] of a
    unicode message that is not ASCII, or what its [__str__] raises),
    [SystemExit] for the exceptions whose class does not derive from
    [Exception] (the clause [except Exception] lets them through). *)
Inductive exn : Type :=
| KeyError (k : key)
| IndexError
| TypeError
| UnicodeEncodeError
| StageError (tag : string)
| Unprintable (tag : string) (raised : exn)
| SystemExit (code : Z).

(** [isinstance(e, Exception)]. *)
Definition is_Exception (e : exn) : bool :=
  match e with
  | SystemExit _ => false
  | _ => true
  end.

Inductive result (A : Type) : Type :=
| Ok (a : A)
| Raise (e : exn).

Arguments Ok {A} a.
Arguments Raise {A} e.

Definition bind (A B : Type) (m : result A) (f : A -> result B) : result B :=
  match m with
  | Ok a => f a
  | Raise e => Raise e
  end.

Notation "x <- m ;; k" := (bind m (fun x => k))
  (at level 61, m at next level, right associativity).

(** The statement [print e] of line 97: the text of [e] is computed and
    written to the standard output, which takes every text; computing it
    raises for an exception that cannot be printed. *)
Definition print_exn (e : exn) : result unit :=
  match e with
  | Unprintable _ raised => Raise raised
  | _ => Ok tt
  end.

(** ** Iteration and flattening *)

Definition chars (s : string) : list value :=
  map (fun c => VStr (String c EmptyString)) (list_ascii_of_string s).

(** [iter(v)]: the items a [for] loop over [v] visits; a [TypeError] for a
    value that is not iterable. *)
Definition iter (v : value) : result (list value) :=
  match v with
  | VList l | VTuple l => Ok l
  | VDict d => Ok (map of_key (keys d))
  | VStr s => Ok (chars s)
  | VNone | VInt _ | VFun _ => Raise TypeError
  end.

(** What one item of the loop of [__flatten_nested_list] adds to [ret]: the
    flattening of the item when it is a list, else the item. *)
Fixpoint flatten_item (item : value) : list value :=
  match item with
  | VList l => flat_map flatten_item l
  | _ => [item]
  end.

(** [Pipeline.__flatten_nested_list]. *)
Definition flatten_nested_list (nested_list : value) : result (list value) :=
  items <- iter nested_list ;;
  Ok (flat_map flatten_item items).

(** [Pipeline.__construct]. *)
Definition construct (specification : value) : result (list value) :=
  flatten_nested_list specification.

(** ** Execution *)

Definition env : Type := dict value.

Section Executor.

(** The behaviour of the callables: [call f inputs kwargs] is what
    [f( *inputs, **kwargs)] returns or raises. *)
Variable call : string -> list value -> list (string * value) -> result value.

(** [stage[name]] on a stage that is a dictionary. *)
Definition getitem (d : dict value) (name : string) : result value :=
  match lookup (KStr name) d with
  | Some v => Ok v
  | None => Raise (KeyError (KStr name))
  end.

(** [data[inp]]. *)
Definition data_get (data : env) (inp : value) : result value :=
  match to_key inp with
  | None => Raise TypeError
  | Some k =>
      match lookup k data with
      | Some v => Ok v
      | None => Raise (KeyError k)
      end
  end.

(** The loop [for inp in stage['in']: inputs.append(data[inp])]. *)
Fixpoint resolve (data : env) (ins : list value) : result (list value) :=
  match ins with
  | [] => Ok []
  | inp :: r =>
      v <- data_get data inp ;;
      vs <- resolve data r ;;
      Ok (v :: vs)
  end.

(** The names and values [**kw] passes: [kw] has to be a dictionary
    whose keys are strings. *)
Fixpoint keywords (d : dict value) : result (list (string * value)) :=
  match d with
  | [] => Ok []
  | (KStr s, v) :: r => kws <- keywords r ;; Ok ((s, v) :: kws)
  | _ :: _ => Raise TypeError
  end.

Definition as_kwargs (kw : value) : result (list (string * value)) :=
  match kw with
  | VDict d => keywords d
  | _ => Raise TypeError
  end.

(** [f( *inputs, **kwargs)]. *)
Definition invoke (f : value) (inputs : list value)
           (kwargs : list (string * value)) : result value :=
  match f with
  | VFun name => call name inputs kwargs
  | _ => Raise TypeError
  end.

(** [if type(outputs) != tuple: outputs = (outputs, )]. *)
Definition as_tuple (outputs : value) : list value :=
  match outputs with
  | VTuple l => l
  | _ => [outputs]
  end.

(** Lines 108-114 for a stage that is the dictionary [d]: the inputs are
    resolved in the order of [stage['in']] and the function is called on
    them, with the named arguments of [stage['kwargs']] when the stage
    has that key. *)
Definition stage_return (d : dict value) (data : env) : result value :=
  ins <- getitem d "in" ;;
  ins <- iter ins ;;
  inputs <- resolve data ins ;;
  if has_key (KStr "kwargs") d then
    f <- getitem d "function" ;;
    kw <- getitem d "kwargs" ;;
    kwargs <- as_kwargs kw ;;
    invoke f inputs kwargs
  else
    f <- getitem d "function" ;;
    invoke f inputs [].

(** Lines 108-116: the return value of the function, made a tuple. *)
Definition stage_outputs (d : dict value) (data : env) : result (list value) :=
  outputs <- stage_return d data ;;
  Ok (as_tuple outputs).

(** The items of [stage['out']]. *)
Definition stage_out (d : dict value) : result (list value) :=
  out <- getitem d "out" ;;
  iter out.

(** The loop [for i, out in enumerate(stage['out']): data[out] = outputs[i]],
    from index [i] on. *)
Fixpoint store (data : env) (outs : list value) (i : nat)
         (outputs : list value) : result env :=
  match outs with
  | [] => Ok data
  | out :: r =>
      match nth_error outputs i with
      | None => Raise IndexError
      | Some v =>
          match to_key out with
          | None => Raise TypeError
          | Some k => store (dict_set data k v) r (S i) outputs
          end
      end
  end.

(** The body of the loop [for stage in pipeline]. [stage['in']] is a
    [TypeError] for every stage that is not a dictionary. *)
Definition run_stage (stage : value) (data : env) : result env :=
  match stage with
  | VDict d =>
      outputs <- stage_outputs d data ;;
      outs <- stage_out d ;;
      store data outs 0 outputs
  | _ => Raise TypeError
  end.

Fixpoint run_stages (pipeline : list value) (data : env) : result env :=
  match pipeline with
  | [] => Ok data
  | stage :: r =>
      data' <- run_stage stage data ;;
      run_stages r data'
  end.

(** The loop [for i, arg in enumerate(args): data[i] = arg], from index
    [i] on. *)
Fixpoint seed (data : env) (i : nat) (args : list value) : env :=
  match args with
  | [] => data
  | arg :: r => seed (dict_set data (KInt (Z.of_nat i)) arg) (S i) r
  end.

(** Lines 103-106: the environment before the first stage. The named
    inputs [kwargs] are the dictionary Python binds to the parameter of
    that name, a fresh one at every call. *)
Definition init_data (pipeline : list value) (args : list value)
           (kwargs : list (string * value)) : env :=
  let data := map (fun nv => (KStr (fst nv), snd nv)) kwargs in
  let data := dict_set data (KStr "pipeline") (VList pipeline) in
  seed data 0 args.

(** A named input called like the parameter [pipeline] of
    [__run_pipeline]. *)
Definition clashes (kwargs : list (string * value)) : bool :=
  existsb (fun nv => String.eqb (fst nv) "pipeline") kwargs.

(** [Pipeline.__run_pipeline], called as
    [self.__run_pipeline(pipeline, *args, **kwargs)]: the call is a
    [TypeError] (multiple values for the keyword argument [pipeline])
    when a named input has the name of the parameter that is passed by
    position. *)
Definition run_pipeline (pipeline : list value) (args : list value)
           (kwargs : list (string * value)) : result env :=
  if clashes kwargs then Raise TypeError
  else run_stages pipeline (init_data pipeline args kwargs).

(** The loop of [transform] over the combinations, [results] being the
    list built so far. A caught exception is printed in the handler: what
    the printing raises leaves [transform]; the text written is not part
    of the returned value and is left out. *)
Fixpoint transform_loop (specifications : list value) (args : list value)
         (kwargs : list (string * value)) (results : list env)
  : result (list env) :=
  match specifications with
  | [] => Ok results
  | specification :: rest =>
      pipeline <- construct specification ;;
      match run_pipeline pipeline args kwargs with
      | Ok r => transform_loop rest args kwargs (results ++ [r])
      | Raise e =>
          if is_Exception e then
            printed <- print_exn e ;;
            transform_loop rest args kwargs results
          else Raise e
      end
  end.

(** [Pipeline.transform] of a pipeline built on [specification]: [args]
    and [kwargs] are the positional and the named inputs ([self] is
    bound by the call and is never one of the names). *)
Definition transform (specification : value) (args : list value)
           (kwargs : list (string * value)) : result (list env) :=
  transform_loop (assemble specification) args kwargs [].

End Executor.

(** ** Post-processing *)

(** [_flatten_nested_dict] of [filter_results]. *)
Fixpoint flatten_nested_dict (nested_dict : value) : dict value :=
  match nested_dict with
  | VList l => dict_of_list (flat_map flatten_nested_dict l)
  | VDict d =>
      dict_of_list
        (flat_map
           (fun kv =>
              (fst kv, snd kv) ::
              match snd kv with
              | VDict _ | VList _ => flatten_nested_dict (snd kv)
              | _ => []
              end) d)
  | _ => []
  end.

(** [Pipeline.filter_results]; [columns] is [None] or the list of the keys
    to keep. *)
Definition filter_results (results : list env) (columns : option (list key))
           (flatten : bool) : list env :=
  map (fun result =>
         let result :=
           if flatten then flatten_nested_dict (VDict result) else result in
         match columns with
         | Some cols =>
             dict_of_list
               (filter (fun kv => existsb (key_eqb (fst kv)) cols) result)
         | None => result
         end) results.

(** ** Notions used in the statements *)

(** The product of a list of numbers. *)
Definition prod_nat (ns : list nat) : nat := fold_right Nat.mul 1 ns.

(** The cross-product by recursion on the pools: the first pool is the
    slowest axis. *)
Fixpoint cross (A : Type) (pools : list (list A)) : list (list A) :=
  match pools with
  | [] => [[]]
  | pool :: rest => flat_map (fun x => map (cons x) (cross rest)) pool
  end.

(** The representation invariant of dictionaries: no key occurs twice, at
    any depth. *)
Fixpoint wf (v : value) : bool :=
  match v with
  | VTuple l | VList l => forallb wf l
  | VDict d => distinct (keys d) && forallb (fun kv => wf (snd kv)) d
  | _ => true
  end.

(** No option node (tuple) anywhere in the tree. *)
Fixpoint option_free (v : value) : bool :=
  match v with
  | VTuple _ => false
  | VList l => forallb option_free l
  | VDict d => forallb (fun kv => option_free (snd kv)) d
  | _ => true
  end.

(** [type(v) == tuple]. *)
Definition is_tuple (v : value) : bool :=
  match v with
  | VTuple _ => true
  | _ => false
  end.

(** The environment after the bindings are stored one after the other. *)
Definition set_all (data : env) (bindings : list (key * value)) : env :=
  fold_left (fun d kv => dict_set d (fst kv) (snd kv)) bindings data.

(** [st] lists the sink [s] in its [out]. *)
Definition writes (st : value) (s : key) : Prop :=
  exists d outs out,
    st = VDict d /\ stage_out d = Ok outs /\ In out outs /\ to_key out = Some s.

(** Printing [e] raises nothing. *)
Definition printable (e : exn) : bool :=
  match print_exn e with
  | Ok _ => true
  | Raise _ => false
  end.

Section Combinations.
Variable call : string -> list value -> list (string * value) -> result value.
Variables (args : list value) (kwargs : list (string * value)).

(** What the flattening and the execution of one combination give. *)
Definition outcome (c : value) : result env :=
  pipeline <- construct c ;;
  run_pipeline call pipeline args kwargs.

(** The results of the combinations that return, in their order. *)
Fixpoint successes (specifications : list value) : list env :=
  match specifications with
  | [] => []
  | c :: rest =>
      match outcome c with
      | Ok r => r :: successes rest
      | Raise _ => successes rest
      end
  end.

(** The combination can be flattened and its execution returns or
    raises an exception of a class under [Exception] that can be
    printed: the loop of [transform] goes on after it. *)
Definition contained (c : value) : bool :=
  match construct c with
  | Raise _ => false
  | Ok pipeline =>
      match run_pipeline call pipeline args kwargs with
      | Ok _ => true
      | Raise e => is_Exception e && printable e
      end
  end.
End Combinations.

(** What [_flatten_nested_dict] adds to [ret] after the entry of a key:
    the flattened value when it is a dictionary or a list. *)
Definition nested (x : value) : dict value :=
  match x with
  | VDict _ | VList _ => flatten_nested_dict x
  | _ => []
  end.

(** The list [ret] of [_flatten_nested_dict] on a dictionary: every entry,
    followed by the promoted entries of its value. *)
Definition entries (d : dict value) : list (key * value) :=
  flat_map (fun kv => (fst kv, snd kv) :: nested (snd kv)) d.

(** The number of combinations of a specification: a sum over the
    alternatives of an option, a product over the children of a list or
    of a mapping. *)
Fixpoint count (v : value) : nat :=
  match v with
  | VTuple l => list_sum (map count l)
  | VList l => prod_nat (map count l)
  | VDict d => prod_nat (map (fun kv => count (snd kv)) d)
  | _ => 1
  end.

(** [type(v) == list]. *)
Definition is_list (v : value) : bool :=
  match v with
  | VList _ => true
  | _ => false
  end.

(** A value that is neither a dictionary nor a list. *)
Definition leaf (v : value) : bool :=
  match v with
  | VDict _ | VList _ => false
  | _ => true
  end.

(** The keys of the dictionaries of a value, at any depth below
    dictionaries and lists. *)
Fixpoint all_keys (v : value) : list key :=
  match v with
  | VList l => flat_map all_keys l
  | VDict d => flat_map (fun kv => fst kv :: all_keys (snd kv)) d
  | _ => []
  end.

(** [v] can be the key of a dictionary: [hash(v)] does not raise. *)
Definition hashable (v : value) : bool :=
  match to_key v with
  | Some _ => true
  | None => false
  end.

(** ** Induction over keys and values *)

Section KeyInd.
Variable P : key -> Prop.
Hypothesis HNone : P KNone.
Hypothesis HInt : forall z, P (KInt z).
Hypothesis HStr : forall s, P (KStr s).
Hypothesis HFun : forall f, P (KFun f).
Hypothesis HTuple : forall ks, Forall P ks -> P (KTuple ks).

Fixpoint key_ind (k : key) : P k :=
  match k with
  | KNone => HNone
  | KInt z => HInt z
  | KStr s => HStr s
  | KFun f => HFun f
  | KTuple ks =>
      HTuple
        ((fix all (ks : list key) : Forall P ks :=
            match ks with
            | [] => Forall_nil P
            | k :: r => Forall_cons k (key_ind k) (all r)
            end) ks)
  end.
End KeyInd.

Section ValueInd.
Variable P : value -> Prop.
Hypothesis HNone : P VNone.
Hypothesis HInt : forall z, P (VInt z).
Hypothesis HStr : forall s, P (VStr s).
Hypothesis HFun : forall f, P (VFun f).
Hypothesis HTuple : forall l, Forall P l -> P (VTuple l).
Hypothesis HList : forall l, Forall P l -> P (VList l).
Hypothesis HDict : forall d, Forall (fun kv => P (snd kv)) d -> P (VDict d).

Fixpoint value_ind (v : value) : P v :=
  match v with
  | VNone => HNone
  | VInt z => HInt z
  | VStr s => HStr s
  | VFun f => HFun f
  | VTuple l =>
      HTuple
        ((fix all (l : list value) : Forall P l :=
            match l with
            | [] => Forall_nil P
            | x :: r => Forall_cons x (value_ind x) (all r)
            end) l)
  | VList l =>
      HList
        ((fix all (l : list value) : Forall P l :=
            match l with
            | [] => Forall_nil P
            | x :: r => Forall_cons x (value_ind x) (all r)
            end) l)
  | VDict d =>
      HDict
        ((fix all (d : list (key * value))
           : Forall (fun kv => P (snd kv)) d :=
            match d with
            | [] => Forall_nil _
            | kv :: r =>
                Forall_cons (P := fun kv => P (snd kv)) kv
                            (value_ind (snd kv)) (all r)
            end) d)
  end.
End ValueInd.

(** ** Example callables and stages *)

Local Open Scope Z_scope.

Fixpoint sum_ints (l : list value) : option Z :=
  match l with
  | [] => Some 0
  | VInt z :: r => option_map (Z.add z) (sum_ints r)
  | _ => None
  end.

(** The callables of the example of the class docstring ([sum], the
    product by the named argument [y], the doubling, the identity, the
    constant list), a function that returns a triple, one that leaves the
    interpreter, one that raises an error with a unicode message that is
    not ASCII, and functions that raise an error that can be printed. *)
Definition demo_call (f : string) (inputs : list value)
           (kwargs : list (string * value)) : result value :=
  if String.eqb f "sum" then
    match inputs, kwargs with
    | [VList l], [] =>
        match sum_ints l with
        | Some z => Ok (VInt z)
        | None => Raise TypeError
        end
    | _, _ => Raise TypeError
    end
  else if String.eqb f "mul" then
    match inputs, kwargs with
    | [VInt x], [(n, VInt y)] =>
        if String.eqb n "y" then Ok (VInt (x * y)) else Raise TypeError
    | _, _ => Raise TypeError
    end
  else if String.eqb f "double" then
    match inputs, kwargs with
    | [VInt x], [] => Ok (VInt (2 * x))
    | _, _ => Raise TypeError
    end
  else if String.eqb f "id" then
    match inputs, kwargs with
    | [x], [] => Ok x
    | _, _ => Raise TypeError
    end
  else if String.eqb f "four" then
    match inputs, kwargs with
    | [], [] => Ok (VList [VInt 0; VInt 1; VInt 2; VInt 3])
    | _, _ => Raise TypeError
    end
  else if String.eqb f "triple" then
    match inputs, kwargs with
    | [VInt x], [] => Ok (VTuple [VInt x; VInt (x + 1); VInt (x + 2)])
    | _, _ => Raise TypeError
    end
  else if String.eqb f "exit" then Raise (SystemExit 1)
  else if String.eqb f "unicode" then Raise (Unprintable f UnicodeEncodeError)
  else Raise (StageError f).

(** A stage [{'function': f, 'in': ins, 'out': outs}]. *)
Definition stage_dict (f : string) (ins outs : list value) : dict value :=
  [(KStr "function", VFun f); (KStr "in", VList ins); (KStr "out", VList outs)].

Definition stage (f : string) (ins outs : list value) : value :=
  VDict (stage_dict f ins outs).

(** The stages, the specification and the data of the docstring, with
    integers for its floating-point numbers. *)
Definition stage_1 : value := stage "sum" [VInt 0] [VInt 1].
Definition stage_2 : value :=
  VDict [(KStr "function", VFun "mul"); (KStr "in", VList [VInt 1]);
         (KStr "out", VList [VInt 2]);
         (KStr "kwargs", VDict [(KStr "y", VTuple [VInt 1; VInt 2])])].
Definition stage_3 : value := stage "double" [VInt 1] [VStr "named_output"].
Definition stage_4 : value := stage "id" [VStr "named_output"] [VInt 3].
Definition stage_5 : value := stage "four" [] [VStr "lambda_input"].

Definition example_specification : value :=
  VTuple [VList [stage_1; stage_2]; VList [stage_1; stage_3; stage_4];
          VList [stage_5]].

Definition example_data : value := VList [VInt 0; VInt 1; VInt 2; VInt 3].

Definition example_columns : list key :=
  [KInt 0; KInt 1; KInt 2; KInt 3; KStr "y"; KStr "lambda_input"].

Local Close Scope Z_scope.

(** * Properties *)

(** ** The example of the docstring *)

(** The four results of the docstring, flattened and filtered. *)
Lemma docstring_example :
  transform demo_call example_specification [example_data] []
  = Ok (successes demo_call [example_data] []
                  (assemble example_specification)) /\
  filter_results
    (successes demo_call [example_data] [] (assemble example_specification))
    (Some example_columns) true
  = [[(KStr "y", VInt 1); (KInt 0, example_data); (KInt 1, VInt 6);
      (KInt 2, VInt 6)];
     [(KStr "y", VInt 2); (KInt 0, example_data); (KInt 1, VInt 6);
      (KInt 2, VInt 12)];
     [(KInt 0, example_data); (KInt 1, VInt 6); (KInt 3, VInt 12)];
     [(KInt 0, example_data);
      (KStr "lambda_input", VList [VInt 0; VInt 1; VInt 2; VInt 3])]]%Z.
Proof.
  split; vm_compute; reflexivity.
Qed.

(** ** Cross-products *)

(** In a concatenation of blocks of one length [len], position [j] is in
    block [j / len], at offset [j mod len]. *)
Lemma nth_error_blocks (A B : Type) (f : B -> list A) (len : nat) (l : list B) :
  0 < len ->
  (forall x, In x l -> length (f x) = len) ->
  forall j,
    nth_error (flat_map f l) j =
    match nth_error l (j / len) with
    | Some x => nth_error (f x) (j mod len)
    | None => None
    end.
Proof.
  intros Hlen. induction l as [|a l IH]; intros Hf j; simpl.
  - destruct j, (_ / len); reflexivity.
  - assert (Ha : length (f a) = len) by (apply Hf; now left).
    destruct (Nat.lt_ge_cases j len) as [Hlt|Hge].
    + rewrite nth_error_app1 by lia.
      rewrite Nat.div_small, Nat.mod_small by assumption. reflexivity.
    + rewrite nth_error_app2 by lia. rewrite Ha.
      rewrite IH by (intros; apply Hf; now right).
      assert (Hj : j = (j - len) + 1 * len) by lia.
      remember (j - len) as j' eqn:Hj'. clear Hj'. subst j.
      rewrite Nat.div_add, Nat.Div0.mod_add by lia.
      rewrite Nat.add_1_r. reflexivity.
Qed.

(** Mixed-radix arithmetic: the digit of weight [m] and radix [n] of [j]
    does not change when [j] is reduced modulo a multiple of [n * m]. *)
Lemma digit_mod (j a n m : nat) :
  0 < m -> 0 < n ->
  ((j mod (a * n * m)) / m) mod n = (j / m) mod n.
Proof.
  intros Hm Hn.
  replace (a * n * m) with (m * (n * a)) by lia.
  rewrite Nat.Div0.mod_mul_r.
  rewrite (Nat.mul_comm m), Nat.div_add by lia.
  rewrite Nat.div_small, Nat.add_0_l by (apply Nat.mod_upper_bound; lia).
  rewrite Nat.Div0.mod_mul_r.
  rewrite (Nat.mul_comm n), Nat.Div0.mod_add.
  apply Nat.Div0.mod_mod.
Qed.

Lemma prod_nat_split (ns : list nat) (k n : nat) :
  nth_error ns k = Some n ->
  prod_nat ns = prod_nat (firstn k ns) * n * prod_nat (skipn (S k) ns).
Proof.
  revert k. induction ns as [|n0 ns IH]; intros [|k] H; simpl in *;
    try discriminate.
  - injection H as ->. lia.
  - rewrite (IH _ H). lia.
Qed.

Section Product.
Variable A : Type.

Lemma extend_block (x : list A) (pool : list A) (rest : list (list A)) :
  flat_map (fun z => map (app z) (cross rest)) (map (fun y => x ++ [y]) pool)
  = map (app x) (flat_map (fun y => map (cons y) (cross rest)) pool).
Proof.
  induction pool as [|y pool IH]; simpl; [reflexivity|].
  rewrite IH, map_app, map_map. f_equal.
  apply map_ext. intros c. now rewrite <- app_assoc.
Qed.

Lemma product_from (pools : list (list A)) :
  forall acc,
    fold_left
      (fun result pool =>
         flat_map (fun x => map (fun y => x ++ [y]) pool) result)
      pools acc
    = flat_map (fun x => map (app x) (cross pools)) acc.
Proof.
  induction pools as [|pool rest IH]; intros acc; simpl.
  - induction acc as [|x acc IHa]; simpl; [reflexivity|].
    rewrite app_nil_r. f_equal. exact IHa.
  - rewrite IH. induction acc as [|x acc IHa]; simpl; [reflexivity|].
    now rewrite flat_map_app, extend_block, IHa.
Qed.

Lemma product_cross (pools : list (list A)) : product pools = cross pools.
Proof.
  unfold product. rewrite product_from. simpl.
  rewrite app_nil_r. apply map_id.
Qed.

Lemma length_cross (pools : list (list A)) :
  length (cross pools) = prod_nat (map (@length A) pools).
Proof.
  induction pools as [|pool rest IH]; simpl; [reflexivity|].
  rewrite flat_map_constant_length with (c := length (cross rest)).
  - now rewrite IH.
  - intros; apply length_map.
Qed.

Lemma cross_item_length (pools : list (list A)) :
  forall item, In item (cross pools) -> length item = length pools.
Proof.
  induction pools as [|pool rest IH]; simpl; intros item Hin.
  - destruct Hin as [<-|[]]; reflexivity.
  - apply in_flat_map in Hin as (x & _ & Hin).
    apply in_map_iff in Hin as (c & <- & Hc). simpl. now rewrite (IH c Hc).
Qed.

Lemma cross_singletons (l : list A) : cross (map (fun x => [x]) l) = [l].
Proof.
  induction l as [|x l IH]; simpl; [reflexivity|]. now rewrite IH.
Qed.

(** Rightmost-fastest order: the component at position [k] of the
    combination of position [j] is the element of pool [k] whose index is
    the digit of [j] of radix [length pool] and of weight the product of
    the lengths of the pools to the right of [k]. *)
Lemma cross_nth (pools : list (list A)) :
  forall j,
    j < prod_nat (map (@length A) pools) ->
    exists item,
      nth_error (cross pools) j = Some item /\
      forall k pool,
        nth_error pools k = Some pool ->
        nth_error item k =
        nth_error pool
          ((j / prod_nat (skipn (S k) (map (@length A) pools)))
             mod length pool).
Proof.
  induction pools as [|p rest IH]; intros j Hj;
    cbn [map prod_nat fold_right cross] in Hj |- *.
  - exists []. assert (j = 0) as -> by lia. split; [reflexivity|].
    intros [|k] pool H; discriminate.
  - fold (prod_nat (map (@length A) rest)) in Hj.
    set (len := prod_nat (map (@length A) rest)) in *.
    assert (Hlen : 0 < len) by (destruct len; lia).
    assert (Hq : j / len < length p)
      by (apply Nat.Div0.div_lt_upper_bound; lia).
    destruct (nth_error p (j / len)) as [x|] eqn:Hx;
      [|apply nth_error_None in Hx; lia].
    destruct (IH (j mod len)) as (item & Hitem & Hk);
      [apply Nat.mod_upper_bound; lia|].
    exists (x :: item). split.
    + rewrite nth_error_blocks with (len := len); auto.
      * rewrite Hx. now rewrite nth_error_map, Hitem.
      * intros y _. rewrite length_map, length_cross. reflexivity.
    + intros k pool Hpool. rewrite skipn_cons.
      destruct k as [|k]; cbn [nth_error] in Hpool |- *.
      * injection Hpool as <-. rewrite skipn_O. fold len.
        now rewrite Nat.mod_small by assumption.
      * rewrite (Hk _ _ Hpool).
        assert (Hn : nth_error (map (@length A) rest) k = Some (length pool))
          by (now rewrite nth_error_map, Hpool).
        pose proof (prod_nat_split _ _ Hn) as Hsplit. fold len in Hsplit.
        destruct (length pool) as [|n] eqn:Hlp; [lia|].
        destruct (prod_nat (skipn (S k) (map (@length A) rest))) as [|m] eqn:Hm;
          [lia|].
        rewrite Hsplit. apply f_equal. apply digit_mod; lia.
Qed.
End Product.

(** ** Expansion of option and sequence nodes *)

Lemma nth_error_concat (A : Type) (blocks : list (list A)) :
  forall i block j,
    nth_error blocks i = Some block ->
    j < length block ->
    nth_error (concat blocks)
              (list_sum (map (@length A) (firstn i blocks)) + j)
    = nth_error block j.
Proof.
  induction blocks as [|b blocks IH]; intros [|i] block j Hi Hj; simpl in *;
    try discriminate.
  - injection Hi as ->. now rewrite nth_error_app1.
  - rewrite nth_error_app2 by lia.
    replace (length b + _ + j - length b)
      with (list_sum (map (@length A) (firstn i blocks)) + j) by lia.
    now apply IH.
Qed.

(** C1. The expansion of an option node (a tuple) is the concatenation of
    the expansions of its alternatives, in the order of the alternatives:
    its length is the sum of their lengths, and combination [j] of
    alternative [i] comes after all the combinations of the alternatives
    before [i]. *)
Theorem assemble_option_concat (alternatives : list value) :
  assemble (VTuple alternatives) = concat (map assemble alternatives) /\
  length (assemble (VTuple alternatives))
  = list_sum (map (fun alt => length (assemble alt)) alternatives) /\
  (forall i alt j,
      nth_error alternatives i = Some alt ->
      j < length (assemble alt) ->
      nth_error (assemble (VTuple alternatives))
                (list_sum (map (fun alt => length (assemble alt))
                               (firstn i alternatives)) + j)
      = nth_error (assemble alt) j).
Proof.
  split; [reflexivity|]. split.
  - cbn [assemble]. now rewrite length_concat, map_map.
  - intros i alt j Hi Hj. cbn [assemble].
    rewrite <- (nth_error_concat (map assemble alternatives) i (block := assemble alt)).
    + now rewrite firstn_map, map_map.
    + now rewrite nth_error_map, Hi.
    + exact Hj.
Qed.

Lemma assemble_option_concat_witness :
  nth_error (assemble (VTuple [VInt 1; VTuple [VInt 2; VInt 3]; VInt 4])) (1 + 1)
  = nth_error (assemble (VTuple [VInt 2; VInt 3])) 1.
Proof.
  apply (proj2 (proj2 (assemble_option_concat
                         [VInt 1; VTuple [VInt 2; VInt 3]; VInt 4]))
           1 (VTuple [VInt 2; VInt 3]) 1).
  - reflexivity.
  - simpl. lia.
Defined.

(** C2. A sequence node (a list) of [m] children whose expansions have
    [n_1], ..., [n_m] combinations expands to [n_1 * ... * n_m]
    combinations, each a list of length [m], in cross-product order with
    the last child varying fastest: at position [j], the component of child
    [k] is the combination of that child of index
    [(j / (n_(k+1) * ... * n_m)) mod n_k]. *)
Theorem assemble_sequence_product (children : list value) :
  let ns := map (fun child => length (assemble child)) children in
  length (assemble (VList children)) = prod_nat ns /\
  (forall c, In c (assemble (VList children)) ->
             exists items, c = VList items /\ length items = length children) /\
  (forall j, j < prod_nat ns ->
             exists items,
               nth_error (assemble (VList children)) j = Some (VList items) /\
               forall k child,
                 nth_error children k = Some child ->
                 nth_error items k =
                 nth_error (assemble child)
                           ((j / prod_nat (skipn (S k) ns))
                              mod length (assemble child))).
Proof.
  intros ns. cbn [assemble]. rewrite product_cross.
  assert (Hns : map (@length value) (map assemble children) = ns)
    by (unfold ns; now rewrite map_map).
  split; [|split].
  - now rewrite length_map, length_cross, Hns.
  - intros c Hc. apply in_map_iff in Hc as (items & <- & Hin).
    exists items. split; [reflexivity|].
    now rewrite (cross_item_length _ _ Hin), length_map.
  - intros j Hj. rewrite <- Hns in Hj.
    destruct (cross_nth (map assemble children) Hj) as (items & Hitems & Hk).
    exists items. split.
    + now rewrite nth_error_map, Hitems.
    + intros k child Hchild.
      rewrite (Hk k (assemble child)), Hns; [reflexivity|].
      now rewrite nth_error_map, Hchild.
Qed.

Lemma assemble_sequence_product_witness :
  exists items,
    nth_error
      (assemble (VList [VTuple [VInt 1; VInt 2]; VTuple [VInt 3; VInt 4; VInt 5]]))
      4
    = Some (VList items) /\
    nth_error items 1 = Some (VInt 4).
Proof.
  destruct (proj2 (proj2 (assemble_sequence_product
                            [VTuple [VInt 1; VInt 2];
                             VTuple [VInt 3; VInt 4; VInt 5]])) 4)
    as (items & Hitems & Hk).
  - simpl. lia.
  - exists items. split; [exact Hitems|].
    apply (Hk 1 (VTuple [VInt 3; VInt 4; VInt 5])). reflexivity.
Defined.

(** ** Equality of keys *)

Lemma key_eqb_eq (a : key) : forall b, key_eqb a b = true <-> a = b.
Proof.
  induction a as [| x | x | x | xs IH] using key_ind; intros [| y | y | y | ys];
    simpl; try (split; [discriminate | intros [=]]); try tauto.
  - rewrite Z.eqb_eq. split; [now intros ->|now intros [=]].
  - rewrite String.eqb_eq. split; [now intros ->|now intros [=]].
  - rewrite String.eqb_eq. split; [now intros ->|now intros [=]].
  - revert ys. induction IH as [|x xs Hx _ IHxs]; intros [|y ys];
      try (split; [discriminate | intros [=]]); try tauto.
    rewrite andb_true_iff, Hx, IHxs.
    split; [now intros [-> [=->]]|now intros [=-> ->]].
Qed.

Lemma key_eqb_refl (k : key) : key_eqb k k = true.
Proof. now apply key_eqb_eq. Qed.

Lemma key_eqb_neq (a b : key) : key_eqb a b = false <-> a <> b.
Proof.
  rewrite <- key_eqb_eq. destruct (key_eqb a b); split; congruence.
Qed.

Lemma existsb_key_In (k : key) (ks : list key) :
  existsb (key_eqb k) ks = true <-> In k ks.
Proof.
  rewrite existsb_exists. split.
  - intros (x & Hin & Heq). apply key_eqb_eq in Heq. now subst.
  - intros Hin. exists k. split; [assumption|apply key_eqb_refl].
Qed.

Lemma existsb_key_notin (k : key) (ks : list key) :
  existsb (key_eqb k) ks = false <-> ~ In k ks.
Proof.
  rewrite <- existsb_key_In. destruct (existsb _ ks); split; congruence.
Qed.

Lemma distinct_NoDup (ks : list key) : distinct ks = true <-> NoDup ks.
Proof.
  induction ks as [|k ks IH]; simpl.
  - split; [constructor|reflexivity].
  - rewrite andb_true_iff, negb_true_iff, existsb_key_notin, IH.
    split; [intros [? ?]; now constructor|now inversion 1].
Qed.

(** ** Dictionaries: reading and writing *)

Section DictFacts.
Variable A : Type.
Implicit Types (d : dict A) (k : key) (v : A).

Lemma lookup_set_same d k v : lookup k (dict_set d k v) = Some v.
Proof.
  induction d as [|[k' v'] d IH]; simpl.
  - now rewrite key_eqb_refl.
  - destruct (key_eqb k k') eqn:E; simpl; rewrite E; [reflexivity|exact IH].
Qed.

Lemma lookup_set_other d k k' v :
  k' <> k -> lookup k' (dict_set d k v) = lookup k' d.
Proof.
  intros Hne. induction d as [|[k0 v0] d IH]; simpl.
  - apply key_eqb_neq in Hne. now rewrite Hne.
  - destruct (key_eqb k k0) eqn:E; simpl.
    + apply key_eqb_eq in E. subst k0.
      apply key_eqb_neq in Hne. now rewrite Hne.
    + now rewrite IH.
Qed.

Lemma lookup_None d k : lookup k d = None <-> ~ In k (keys d).
Proof.
  induction d as [|[k' v'] d IH]; simpl; [tauto|].
  destruct (key_eqb k k') eqn:E.
  - apply key_eqb_eq in E. subst. split; [discriminate|tauto].
  - apply key_eqb_neq in E. rewrite IH. split; [intros ? [?|?]|]; intuition.
Qed.

Lemma dict_set_new d k v : ~ In k (keys d) -> dict_set d k v = d ++ [(k, v)].
Proof.
  induction d as [|[k' v'] d IH]; simpl; intros Hk; [reflexivity|].
  destruct (key_eqb k k') eqn:E.
  - apply key_eqb_eq in E. subst. tauto.
  - rewrite IH; tauto.
Qed.

Lemma keys_dict_set d k v :
  forall k', In k' (keys (dict_set d k v)) <-> k' = k \/ In k' (keys d).
Proof.
  intros k'. induction d as [|[k0 v0] d IH]; simpl; [intuition|].
  destruct (key_eqb k k0) eqn:E; simpl.
  - apply key_eqb_eq in E. subst. intuition.
  - rewrite IH. intuition.
Qed.

(** Storing entries with pairwise distinct new keys appends them. *)
Lemma fold_set_new (B : Type) (h : key * B -> A) (l : list (key * B)) :
  forall acc,
    NoDup (map fst l) ->
    (forall kv, In kv l -> ~ In (fst kv) (keys acc)) ->
    fold_left (fun r kv => dict_set r (fst kv) (h kv)) l acc
    = acc ++ map (fun kv => (fst kv, h kv)) l.
Proof.
  induction l as [|kv l IH]; intros acc Hnd Hnew; simpl.
  - now rewrite app_nil_r.
  - inversion Hnd as [|? ? Hk Hnd']; subst.
    rewrite dict_set_new by (apply Hnew; now left).
    rewrite IH; [now rewrite <- app_assoc|assumption|].
    intros kv' Hin. unfold keys. rewrite map_app, in_app_iff. simpl.
    intros [Hacc|[Heq|[]]].
    + apply (Hnew kv'); [now right|exact Hacc].
    + apply Hk. rewrite Heq. now apply in_map.
Qed.

Lemma dict_of_list_distinct (l : list (key * A)) :
  NoDup (map fst l) -> dict_of_list l = l.
Proof.
  intros Hnd. unfold dict_of_list.
  rewrite (fold_set_new (fun kv => snd kv)); [|assumption|intros ? _ []].
  simpl. rewrite map_ext with (g := fun kv => kv); [apply map_id|].
  now intros [k v].
Qed.
End DictFacts.

(** ** Option-free specifications *)

Lemma combine_keys_values (A : Type) (d : dict A) :
  combine (keys d) (values d) = d.
Proof.
  induction d as [|[k v] d IH]; simpl; [reflexivity|]. now rewrite IH.
Qed.

(** C6. A specification without option nodes expands to exactly one
    combination, the specification itself. *)
Theorem assemble_option_free (specification : value) :
  wf specification = true ->
  option_free specification = true ->
  assemble specification = [specification].
Proof.
  induction specification as [| z | s | f | l IH | l IH | d IH] using value_ind;
    intros Hwf Hfree; try reflexivity.
  - discriminate.
  - cbn [assemble wf option_free] in *. rewrite product_cross.
    rewrite forallb_forall in Hwf, Hfree. rewrite Forall_forall in IH.
    rewrite map_ext_in with (g := fun x => [x]) by auto.
    now rewrite cross_singletons.
  - cbn [assemble wf option_free] in *.
    apply andb_true_iff in Hwf as [Hnd Hwf]. apply distinct_NoDup in Hnd.
    rewrite forallb_forall in Hwf, Hfree. rewrite Forall_forall in IH.
    rewrite (fold_set_new (fun kv => assemble (snd kv)));
      [|assumption|intros ? _ []].
    cbn [app]. unfold keys at 1, values. rewrite !map_map. cbn [fst snd].
    rewrite map_ext_in with (f := fun kv => assemble (snd kv))
                            (g := fun kv => [snd kv]) by auto.
    rewrite product_cross, <- map_map with (g := fun x => [x]).
    rewrite cross_singletons. cbn [map].
    change (map (fun x : key * value => fst x) d) with (keys d).
    now rewrite combine_keys_values, dict_of_list_distinct.
Qed.

Lemma assemble_option_free_witness :
  assemble
    (VList [VDict [(KStr "function", VFun "sum"); (KStr "in", VList [VInt 0]);
                   (KStr "out", VList [VInt 1])]])
  = [VList [VDict [(KStr "function", VFun "sum"); (KStr "in", VList [VInt 0]);
                   (KStr "out", VList [VInt 1])]]].
Proof.
  apply assemble_option_free; reflexivity.
Defined.

(** C7, as stated, fails on the empty tuple: an option node without
    alternatives has no combination. *)
Lemma assemble_empty_tuple_counterexample :
  length (assemble (VTuple [])) = 0 /\ assemble (VTuple []) <> [VTuple []].
Proof.
  split; [reflexivity|discriminate].
Qed.

(** C7, amended. A mapping or a list without children expands to exactly
    one combination, the empty container itself; a tuple without
    alternatives expands to no combination. *)
Theorem assemble_empty_container :
  assemble (VDict []) = [VDict []] /\
  assemble (VList []) = [VList []] /\
  assemble (VTuple []) = [].
Proof.
  repeat split.
Qed.

(** ** Stages: outputs and sinks *)

Lemma bind_Ok (A B : Type) (m : result A) (f : A -> result B) (b : B) :
  (x <- m ;; f x) = Ok b -> exists a, m = Ok a /\ f a = Ok b.
Proof.
  destruct m as [a|e]; simpl; [eauto|discriminate].
Qed.

Ltac bind_inv H :=
  let x := fresh "x" in
  let Hx := fresh "H" x in
  apply bind_Ok in H as (x & Hx & H).

Lemma skipn_nth_error (A : Type) (l : list A) :
  forall i v, nth_error l i = Some v -> skipn i l = v :: skipn (S i) l.
Proof.
  induction l as [|a l IH]; intros [|i] v H; simpl in *; try discriminate.
  - now injection H as ->.
  - now apply IH.
Qed.

Lemma store_bindings (outs : list value) :
  forall ks i outputs data,
    map to_key outs = map Some ks ->
    i + length ks <= length outputs ->
    store data outs i outputs = Ok (set_all data (combine ks (skipn i outputs))).
Proof.
  induction outs as [|out outs IH]; intros [|k ks] i outputs data Hks Hlen;
    simpl in *; try discriminate; [reflexivity|].
  injection Hks as Hk Hks.
  destruct (nth_error outputs i) as [v|] eqn:Hv;
    [|apply nth_error_None in Hv; lia].
  rewrite Hk, (IH ks) by (assumption || lia).
  now rewrite (skipn_nth_error _ _ Hv).
Qed.

(** C5. The return value of the function of a stage is bound to the sinks
    of [out] as a tuple: a value that is not a tuple is bound as it is to
    the single sink of [out]; the elements of a tuple are bound by
    position to the sinks of [out], and when the tuple is longer than
    [out] only its first [len(out)] elements are used, without an
    error. *)
Theorem stage_outputs_bound call (d : dict value) (data : env)
        (ret : value) (outs : list value) :
  stage_return call d data = Ok ret ->
  stage_out d = Ok outs ->
  (forall out k,
      is_tuple ret = false -> outs = [out] -> to_key out = Some k ->
      run_stage call (VDict d) data = Ok (dict_set data k ret)) /\
  (forall vs ks,
      ret = VTuple vs -> map to_key outs = map Some ks ->
      length ks <= length vs ->
      run_stage call (VDict d) data
      = Ok (set_all data (combine ks (firstn (length ks) vs)))).
Proof.
  intros Hret Hout. unfold run_stage, stage_outputs. rewrite Hret, Hout.
  cbn [bind]. split.
  - intros out k Htuple -> Hk.
    destruct ret; try discriminate; simpl; now rewrite Hk.
  - intros vs ks -> Hks Hlen. cbn [as_tuple].
    rewrite (store_bindings outs ks 0 vs data Hks) by (simpl; lia).
    now rewrite skipn_O, <- combine_firstn_l.
Qed.

Lemma stage_outputs_bound_witness :
  run_stage demo_call (stage "id" [VInt 0] [VStr "a"])
            [(KInt 0, VInt 7)]
  = Ok [(KInt 0, VInt 7); (KStr "a", VInt 7)] /\
  run_stage demo_call (stage "triple" [VInt 0] [VStr "a"; VStr "b"])
            [(KInt 0, VInt 7)]
  = Ok [(KInt 0, VInt 7); (KStr "a", VInt 7); (KStr "b", VInt 8)].
Proof.
  split.
  - apply (proj1 (@stage_outputs_bound
                    demo_call (stage_dict "id" [VInt 0] [VStr "a"])
                    [(KInt 0, VInt 7)] (VInt 7) [VStr "a"] eq_refl eq_refl)
             (VStr "a") (KStr "a")); reflexivity.
  - apply (proj2 (@stage_outputs_bound
                    demo_call (stage_dict "triple" [VInt 0] [VStr "a"; VStr "b"])
                    [(KInt 0, VInt 7)] (VTuple [VInt 7; VInt 8; VInt 9])
                    [VStr "a"; VStr "b"] eq_refl eq_refl)
             [VInt 7; VInt 8; VInt 9] [KStr "a"; KStr "b"]);
      [reflexivity|reflexivity|simpl; lia].
Defined.

(** ** Overwriting of sinks *)

Lemma run_stages_app call (pre post : list value) :
  forall data,
    run_stages call (pre ++ post) data
    = (data' <- run_stages call pre data ;; run_stages call post data').
Proof.
  induction pre as [|st pre IH]; intros data; simpl; [reflexivity|].
  destruct (run_stage call st data) as [data'|e]; simpl; [apply IH|reflexivity].
Qed.

(** A loop of stores that names no sink [s] leaves [s] as it was. *)
Lemma store_other (s : key) (outs : list value) :
  forall data i outputs data',
    store data outs i outputs = Ok data' ->
    (forall out, In out outs -> to_key out <> Some s) ->
    lookup s data' = lookup s data.
Proof.
  induction outs as [|out outs IH]; intros data i outputs data' H Hs;
    simpl in H.
  - now injection H as ->.
  - destruct (nth_error outputs i) as [v|]; [|discriminate].
    destruct (to_key out) as [k|] eqn:Hk; [|discriminate].
    rewrite (IH _ _ _ _ H) by (intros; apply Hs; now right).
    apply lookup_set_other. intros ->. apply (Hs out); [now left|assumption].
Qed.

(** After a loop of stores, the sink [s] holds the output of the last
    position of [outs] that names it. *)
Lemma store_last (s : key) (outs : list value) :
  forall data i0 outputs data',
    store data outs i0 outputs = Ok data' ->
    forall i out,
      nth_error outs i = Some out ->
      to_key out = Some s ->
      (forall j out', i < j -> nth_error outs j = Some out' ->
                      to_key out' <> Some s) ->
      lookup s data' = nth_error outputs (i0 + i).
Proof.
  induction outs as [|o outs IH]; intros data i0 outputs data' H i out Hi Hs Hlast.
  - destruct i; discriminate.
  - simpl in H.
    destruct (nth_error outputs i0) as [v|] eqn:Hv; [|discriminate].
    destruct (to_key o) as [k|] eqn:Hk; [|discriminate].
    destruct i as [|i]; simpl in Hi.
    + injection Hi as ->. assert (k = s) as -> by congruence.
      rewrite (@store_other s _ _ _ _ _ H).
      * now rewrite lookup_set_same, Nat.add_0_r.
      * intros out' Hin. apply In_nth_error in Hin as (j & Hj).
        apply (Hlast (S j) out'); [lia|exact Hj].
    + rewrite (IH _ _ _ _ H i out Hi Hs).
      * f_equal. lia.
      * intros j out' Hlt Hj. apply (Hlast (S j) out'); [lia|exact Hj].
Qed.

Lemma run_stage_other call (s : key) (st : value) (data data' : env) :
  run_stage call st data = Ok data' ->
  ~ writes st s ->
  lookup s data' = lookup s data.
Proof.
  intros H Hw. destruct st as [| | | | |  | d]; try discriminate.
  unfold run_stage in H. bind_inv H. bind_inv H.
  apply (@store_other s _ _ _ _ _ H).
  intros out Hin Hk. apply Hw. now exists d, x0, out.
Qed.

Lemma run_stages_other call (s : key) (pipeline : list value) :
  forall data data',
    run_stages call pipeline data = Ok data' ->
    (forall st, In st pipeline -> ~ writes st s) ->
    lookup s data' = lookup s data.
Proof.
  induction pipeline as [|st pipeline IH]; intros data data' H Hw; simpl in H.
  - now injection H as ->.
  - bind_inv H. rewrite (IH _ _ H) by (intros; apply Hw; now right).
    apply (@run_stage_other call s _ _ _ Hx). apply Hw. now left.
Qed.

(** C4. In a run of a flat stage list that returns, a sink [s] that
    several stages list in their [out] holds in the returned environment
    the value written by the last of them: for the last stage [st] that
    lists [s] (whatever the stages before it wrote), the output of [st] at
    the last position of its [out] that names [s]. *)
Theorem last_writer_wins call (pre post : list value) (d : dict value)
        (data0 data1 dataF : env) (outputs outs : list value) (s : key) :
  run_stages call pre data0 = Ok data1 ->
  stage_outputs call d data1 = Ok outputs ->
  stage_out d = Ok outs ->
  (forall st, In st post -> ~ writes st s) ->
  run_stages call (pre ++ VDict d :: post) data0 = Ok dataF ->
  forall i out,
    nth_error outs i = Some out ->
    to_key out = Some s ->
    (forall j out', i < j -> nth_error outs j = Some out' ->
                    to_key out' <> Some s) ->
    lookup s dataF = nth_error outputs i.
Proof.
  intros Hpre Houtputs Houts Hpost Hrun i out Hi Hs Hlast.
  rewrite run_stages_app, Hpre in Hrun. cbn [bind run_stages] in Hrun.
  bind_inv Hrun. unfold run_stage in Hx. rewrite Houtputs, Houts in Hx.
  cbn [bind] in Hx.
  rewrite (@run_stages_other call s _ _ _ Hrun Hpost).
  apply (@store_last s _ _ _ _ _ Hx i out Hi Hs Hlast).
Qed.

Lemma last_writer_wins_witness :
  run_stages demo_call
             [stage "id" [VInt 0] [VStr "s"];
              stage "double" [VInt 0] [VStr "s"];
              stage "four" [] [VStr "t"]]
             [(KInt 0, VInt 7)]
  = Ok [(KInt 0, VInt 7); (KStr "s", VInt 14);
        (KStr "t", VList [VInt 0; VInt 1; VInt 2; VInt 3])] /\
  lookup (KStr "s")
         [(KInt 0, VInt 7); (KStr "s", VInt 14);
          (KStr "t", VList [VInt 0; VInt 1; VInt 2; VInt 3])]
  = Some (VInt 14).
Proof.
  split; [reflexivity|].
  apply (@last_writer_wins
           demo_call
           [stage "id" [VInt 0] [VStr "s"]]
           [stage "four" [] [VStr "t"]]
           (stage_dict "double" [VInt 0] [VStr "s"])
           [(KInt 0, VInt 7)]
           [(KInt 0, VInt 7); (KStr "s", VInt 7)]
           [(KInt 0, VInt 7); (KStr "s", VInt 14);
            (KStr "t", VList [VInt 0; VInt 1; VInt 2; VInt 3])]
           [VInt 14] [VStr "s"] (KStr "s")
           eq_refl eq_refl eq_refl)
    with (i := 0) (out := VStr "s").
  - intros st [<-|[]] (d & outs & out & Hd & Houts & Hin & Hk).
    injection Hd as <-. injection Houts as <-.
    destruct Hin as [<-|[]]. discriminate.
  - reflexivity.
  - reflexivity.
  - reflexivity.
  - intros [|[|j]] out' Hlt Hj; [lia|discriminate|discriminate].
Defined.

(** ** The reserved key of the environment *)

Lemma lookup_seed_name (name : string) (args : list value) :
  forall data i, lookup (KStr name) (seed data i args) = lookup (KStr name) data.
Proof.
  induction args as [|arg args IH]; intros data i; simpl; [reflexivity|].
  rewrite IH. apply lookup_set_other. discriminate.
Qed.

Lemma lookup_init_pipeline (pipeline args : list value)
      (kwargs : list (string * value)) :
  lookup (KStr "pipeline") (init_data pipeline args kwargs)
  = Some (VList pipeline).
Proof.
  unfold init_data. rewrite lookup_seed_name. apply lookup_set_same.
Qed.

(** C10, as stated, fails for a caller who passes a named input
    [pipeline]: the call of [__run_pipeline] is rejected, no environment
    is built and no combination gives a result, where the same call
    without that named input gives one. *)
Lemma reserved_key_counterexample :
  run_pipeline demo_call [stage_1] [example_data] [("pipeline", VInt 5)]
  = Raise TypeError /\
  transform demo_call (VList [stage_1]) [example_data] [("pipeline", VInt 5)]
  = Ok [] /\
  transform demo_call (VList [stage_1]) [example_data] []
  = Ok [[(KStr "pipeline", VList [stage_1]); (KInt 0, example_data);
         (KInt 1, VInt 6)]].
Proof.
  repeat split.
Qed.

(** C10, amended. When no named input of the caller is called [pipeline],
    the execution of a concrete specification starts from an environment
    that binds the reserved key ['pipeline'] to the flat ordered stage
    list. *)
Theorem reserved_key_bound call (pipeline args : list value)
        (kwargs : list (string * value)) :
  clashes kwargs = false ->
  run_pipeline call pipeline args kwargs
  = run_stages call pipeline (init_data pipeline args kwargs) /\
  lookup (KStr "pipeline") (init_data pipeline args kwargs)
  = Some (VList pipeline).
Proof.
  intros Hfree. unfold run_pipeline. rewrite Hfree.
  split; [reflexivity|apply lookup_init_pipeline].
Qed.

Lemma reserved_key_bound_witness :
  run_pipeline demo_call [stage_1] [example_data] [("y", VInt 2)]
  = run_stages demo_call [stage_1]
               (init_data [stage_1] [example_data] [("y", VInt 2)]) /\
  lookup (KStr "pipeline") (init_data [stage_1] [example_data] [("y", VInt 2)])
  = Some (VList [stage_1]).
Proof.
  apply (@reserved_key_bound demo_call [stage_1] [example_data] [("y", VInt 2)]).
  reflexivity.
Defined.

(** ** Isolation of the combinations *)

Lemma print_exn_printable (e : exn) :
  printable e = true -> print_exn e = Ok tt.
Proof.
  unfold printable. now destruct (print_exn e) as [[]|].
Qed.

Section Driver.
Variable call : string -> list value -> list (string * value) -> result value.
Variables (args : list value) (kwargs : list (string * value)).

Lemma transform_loop_skip (c : value) (pipeline : list value) (e : exn)
      (rest : list value) (results : list env) :
  construct c = Ok pipeline ->
  run_pipeline call pipeline args kwargs = Raise e ->
  is_Exception e = true ->
  printable e = true ->
  transform_loop call (c :: rest) args kwargs results
  = transform_loop call rest args kwargs results.
Proof.
  intros Hc Hrun He Hp. simpl. rewrite Hc. simpl.
  now rewrite Hrun, He, (print_exn_printable _ Hp).
Qed.

Lemma transform_loop_without (c : value) (pre post : list value) :
  (forall results,
      transform_loop call (c :: post) args kwargs results
      = transform_loop call post args kwargs results) ->
  forall results,
    transform_loop call (pre ++ c :: post) args kwargs results
    = transform_loop call (pre ++ post) args kwargs results.
Proof.
  intros Hskip. induction pre as [|c' pre IH]; intros results;
    [apply Hskip|].
  cbn [app transform_loop].
  destruct (construct c') as [p|]; cbn [bind]; [|reflexivity].
  destruct (run_pipeline call p args kwargs) as [r|e]; [apply IH|].
  destruct (is_Exception e); [|reflexivity].
  destruct (print_exn e); cbn [bind]; [apply IH|reflexivity].
Qed.

Lemma transform_loop_contained (specifications : list value) :
  forallb (contained call args kwargs) specifications = true ->
  forall results,
    transform_loop call specifications args kwargs results
    = Ok (results ++ successes call args kwargs specifications).
Proof.
  induction specifications as [|c rest IH]; intros Hall results; simpl.
  - now rewrite app_nil_r.
  - simpl in Hall. apply andb_true_iff in Hall as [Hc Hrest].
    unfold contained in Hc. unfold outcome.
    destruct (construct c) as [p|]; [|discriminate]. cbn [bind].
    destruct (run_pipeline call p args kwargs) as [r|e].
    + rewrite (IH Hrest), <- app_assoc. reflexivity.
    + apply andb_true_iff in Hc as [He Hp].
      rewrite He, (print_exn_printable _ Hp). apply (IH Hrest).
Qed.

Lemma successes_app (pre post : list value) :
  successes call args kwargs (pre ++ post)
  = successes call args kwargs pre ++ successes call args kwargs post.
Proof.
  induction pre as [|c pre IH]; simpl; [reflexivity|].
  destruct (outcome call args kwargs c); simpl; now rewrite IH.
Qed.

Lemma successes_In (specifications : list value) (c : value) (r : env) :
  In c specifications -> outcome call args kwargs c = Ok r -> In r (successes call args kwargs specifications).
Proof.
  intros Hin Hr. induction specifications as [|c' rest IH]; [destruct Hin|].
  simpl. destruct Hin as [->|Hin].
  - rewrite Hr. now left.
  - destruct (outcome call args kwargs c'); [right|]; auto.
Qed.
End Driver.

(** X16. A stage that reads a sink absent from the environment, the
    sinks listed before it being found, raises the [KeyError] of that
    sink, before its function is called. *)
Lemma run_stage_missing_sink call (d : dict value) (data : env)
      (ins : value) (before after : list value) (inp : value) (k : key)
      (vs : list value) :
  getitem d "in" = Ok ins ->
  iter ins = Ok (before ++ inp :: after) ->
  resolve data before = Ok vs ->
  to_key inp = Some k ->
  lookup k data = None ->
  run_stage call (VDict d) data = Raise (KeyError k) /\
  is_Exception (KeyError k) = true.
Proof.
  intros Hin Hiter Hbefore Hk Hnone. split; [|reflexivity].
  unfold run_stage, stage_outputs, stage_return. rewrite Hin. cbn [bind].
  rewrite Hiter. cbn [bind].
  assert (Hres : resolve data (before ++ inp :: after) = Raise (KeyError k)).
  { clear Hiter. revert vs Hbefore.
    induction before as [|x before IH]; intros vs Hbefore; simpl.
    - unfold data_get. now rewrite Hk, Hnone.
    - simpl in Hbefore. destruct (data_get data x); [|discriminate].
      cbn [bind] in *. destruct (resolve data before) as [vs'|]; [|discriminate].
      now rewrite (IH vs'). }
  now rewrite Hres.
Qed.

(** C3, as stated, fails for a combination whose stage raises an
    exception outside [Exception]: with [SystemExit] in the first
    combination, [transform] raises it and returns no list, although the
    second combination would be executed with success. *)
Lemma transform_isolation_counterexample :
  transform demo_call
            (VTuple [VList [stage "exit" [] []]; VList [stage_5]])
            [example_data] []
  = Raise (SystemExit 1) /\
  outcome demo_call [example_data] [] (VList [stage_5])
  = Ok [(KStr "pipeline", VList [stage_5]); (KInt 0, example_data);
        (KStr "lambda_input", VList [VInt 0; VInt 1; VInt 2; VInt 3])].
Proof.
  split; reflexivity.
Qed.

(** C3, amended. When the execution of one combination that can be
    flattened fails with an exception of a class under [Exception] that
    can be printed (such as the [KeyError] of a sink that no stage
    wrote), [transform] returns what it returns without that combination;
    when the other combinations can be flattened and none raises an
    exception that is outside [Exception] or cannot be printed, it
    returns the results of those that succeed: the results of the
    combinations before the failing one, then those of the combinations
    after it, each successful result being there. *)
Theorem transform_isolates_failure call (specification : value)
        (args : list value) (kwargs : list (string * value))
        (pre post : list value) (c : value) (pipeline : list value) (e : exn) :
  assemble specification = pre ++ c :: post ->
  construct c = Ok pipeline ->
  run_pipeline call pipeline args kwargs = Raise e ->
  is_Exception e = true ->
  printable e = true ->
  transform call specification args kwargs
  = transform_loop call (pre ++ post) args kwargs [] /\
  (forallb (contained call args kwargs) (pre ++ post) = true ->
   transform call specification args kwargs
   = Ok (successes call args kwargs pre ++ successes call args kwargs post) /\
   forall c' r,
     In c' (pre ++ post) ->
     outcome call args kwargs c' = Ok r ->
     In r (successes call args kwargs pre ++ successes call args kwargs post)).
Proof.
  intros Hspec Hc Hrun He Hp. unfold transform. rewrite Hspec.
  assert (Hwithout :
            transform_loop call (pre ++ c :: post) args kwargs []
            = transform_loop call (pre ++ post) args kwargs []).
  { apply transform_loop_without. intros results.
    now apply transform_loop_skip with (pipeline := pipeline) (e := e). }
  split; [exact Hwithout|]. intros Hall. rewrite <- successes_app. split.
  - rewrite Hwithout. now rewrite transform_loop_contained.
  - intros c' r. apply successes_In.
Qed.

Lemma transform_isolates_failure_witness :
  transform demo_call
            (VTuple [VList [stage_1];
                     VList [stage "id" [VStr "undeclared"] [VInt 2]];
                     VList [stage_5]])
            [example_data] []
  = Ok [[(KStr "pipeline", VList [stage_1]); (KInt 0, example_data);
         (KInt 1, VInt 6)];
        [(KStr "pipeline", VList [stage_5]); (KInt 0, example_data);
         (KStr "lambda_input", VList [VInt 0; VInt 1; VInt 2; VInt 3])]].
Proof.
  apply (proj1 (proj2 (@transform_isolates_failure
                  demo_call
                  (VTuple [VList [stage_1];
                           VList [stage "id" [VStr "undeclared"] [VInt 2]];
                           VList [stage_5]])
                  [example_data] []
                  [VList [stage_1]] [VList [stage_5]]
                  (VList [stage "id" [VStr "undeclared"] [VInt 2]])
                  [stage "id" [VStr "undeclared"] [VInt 2]]
                  (KeyError (KStr "undeclared"))
                  eq_refl eq_refl eq_refl eq_refl eq_refl) eq_refl)).
Defined.

(** ** A stage without its [out] key *)

Lemma getitem_missing (d : dict value) (name : string) :
  has_key (KStr name) d = false -> getitem d name = Raise (KeyError (KStr name)).
Proof.
  unfold has_key, getitem. rewrite existsb_key_notin, <- lookup_None.
  now intros ->.
Qed.

Lemma run_stage_missing_out call (d : dict value) (data : env) :
  has_key (KStr "out") d = false ->
  run_stage call (VDict d) data
  = match stage_return call d data with
    | Ok _ => Raise (KeyError (KStr "out"))
    | Raise e => Raise e
    end.
Proof.
  intros Hout. unfold run_stage, stage_outputs, stage_out.
  rewrite (getitem_missing _ _ Hout).
  now destruct (stage_return call d data).
Qed.

Lemma run_stages_missing_out call (d : dict value) (before after : list value) :
  has_key (KStr "out") d = false ->
  forall data r, run_stages call (before ++ VDict d :: after) data <> Ok r.
Proof.
  intros Hout data r. rewrite run_stages_app.
  destruct (run_stages call before data) as [data1|e]; [|discriminate].
  cbn [bind run_stages]. rewrite run_stage_missing_out by assumption.
  now destruct (stage_return call d data1).
Qed.

(** C9, as stated, fails: for an option between a well-formed stage list
    and one whose stage has no [out] key, [transform] raises nothing; the
    well-formed combination is executed and its result is returned. *)
Lemma missing_out_counterexample :
  transform demo_call
            (VTuple [VList [stage_1];
                     VList [VDict [(KStr "function", VFun "sum");
                                   (KStr "in", VList [VInt 0])]]])
            [example_data] []
  = Ok [[(KStr "pipeline", VList [stage_1]); (KInt 0, example_data);
         (KInt 1, VInt 6)]].
Proof.
  reflexivity.
Qed.

(** C9, amended. A stage mapping without its [out] key is not detected by
    the expansion: it comes out in a combination [c]. It is met when the
    stage is executed, after the inputs of the stage were resolved and
    its function was called: the stage raises what the function raises,
    and the [KeyError] of ['out'] when the function returns. The
    combination never gives a result, and when its exception is of a
    class under [Exception] and can be printed (as the [KeyError] of
    ['out'] is) it is caught for that combination only: [transform]
    returns what it returns for the other combinations. *)
Theorem missing_out_fails_at_execution call (specification : value)
        (args : list value) (kwargs : list (string * value))
        (pre post : list value) (c : value)
        (before after : list value) (d : dict value) :
  assemble specification = pre ++ c :: post ->
  construct c = Ok (before ++ VDict d :: after) ->
  has_key (KStr "out") d = false ->
  (forall data ret,
      stage_return call d data = Ok ret ->
      run_stage call (VDict d) data = Raise (KeyError (KStr "out"))) /\
  (forall data e,
      stage_return call d data = Raise e ->
      run_stage call (VDict d) data = Raise e) /\
  (forall r,
      run_pipeline call (before ++ VDict d :: after) args kwargs <> Ok r) /\
  (forall e,
      run_pipeline call (before ++ VDict d :: after) args kwargs = Raise e ->
      is_Exception e = true ->
      printable e = true ->
      transform call specification args kwargs
      = transform_loop call (pre ++ post) args kwargs []).
Proof.
  intros Hspec Hc Hout. repeat split.
  - intros data ret Hret. now rewrite run_stage_missing_out, Hret.
  - intros data e Hret. now rewrite run_stage_missing_out, Hret.
  - intros r. unfold run_pipeline. destruct (clashes kwargs); [discriminate|].
    now apply run_stages_missing_out.
  - intros e Hrun He Hp. unfold transform. rewrite Hspec.
    apply transform_loop_without. intros results.
    now apply transform_loop_skip
      with (pipeline := before ++ VDict d :: after) (e := e).
Qed.

Lemma missing_out_fails_at_execution_witness :
  run_stage demo_call
            (VDict [(KStr "function", VFun "sum"); (KStr "in", VList [VInt 0])])
            [(KInt 0, example_data)]
  = Raise (KeyError (KStr "out")) /\
  transform demo_call
            (VTuple [VList [stage_1];
                     VList [VDict [(KStr "function", VFun "sum");
                                   (KStr "in", VList [VInt 0])]]])
            [example_data] []
  = transform_loop demo_call [VList [stage_1]] [example_data] [] [].
Proof.
  pose proof (@missing_out_fails_at_execution
                demo_call
                (VTuple [VList [stage_1];
                         VList [VDict [(KStr "function", VFun "sum");
                                       (KStr "in", VList [VInt 0])]]])
                [example_data] []
                [VList [stage_1]] []
                (VList [VDict [(KStr "function", VFun "sum");
                               (KStr "in", VList [VInt 0])]])
                [] []
                [(KStr "function", VFun "sum"); (KStr "in", VList [VInt 0])]
                eq_refl eq_refl eq_refl) as (Hret & _ & _ & Hskip).
  split.
  - apply (Hret [(KInt 0, example_data)] (VInt 6)). reflexivity.
  - apply (Hskip (KeyError (KStr "out"))); reflexivity.
Defined.

(** ** Flattening of results *)

Section FlattenFacts.
Variable A : Type.
Implicit Types (d : dict A) (k : key).

Lemma lookup_app k d1 d2 :
  lookup k (d1 ++ d2)
  = match lookup k d1 with
    | Some v => Some v
    | None => lookup k d2
    end.
Proof.
  induction d1 as [|[k' v'] d1 IH]; simpl; [reflexivity|].
  now destruct (key_eqb k k').
Qed.

Lemma lookup_set_all k (l : list (key * A)) :
  forall acc,
    lookup k (fold_left (fun d kv => dict_set d (fst kv) (snd kv)) l acc)
    = match lookup k (rev l) with
      | Some v => Some v
      | None => lookup k acc
      end.
Proof.
  induction l as [|[k' v'] l IH]; intros acc; simpl; [reflexivity|].
  rewrite IH, lookup_app. destruct (lookup k (rev l)); [reflexivity|].
  simpl. destruct (key_eqb k k') eqn:E.
  - apply key_eqb_eq in E. subst. apply lookup_set_same.
  - apply key_eqb_neq in E. now apply lookup_set_other.
Qed.

(** [dict(pairs)] keeps for every key its last pair. *)
Lemma lookup_dict_of_list k (l : list (key * A)) :
  lookup k (dict_of_list l) = lookup k (rev l).
Proof.
  unfold dict_of_list. rewrite lookup_set_all.
  now destruct (lookup k (rev l)).
Qed.

Lemma NoDup_keys_set d k (v : A) :
  NoDup (keys d) -> NoDup (keys (dict_set d k v)).
Proof.
  induction d as [|[k' v'] d IH]; simpl; intros Hnd.
  - repeat constructor. intros [].
  - inversion Hnd as [|? ? Hk Hnd']; subst.
    destruct (key_eqb k k') eqn:E; simpl; [now constructor|].
    constructor; [|now apply IH].
    fold (keys (dict_set d k v)). rewrite keys_dict_set.
    apply key_eqb_neq in E. intros [->|?]; tauto.
Qed.

Lemma NoDup_keys_of_list (l : list (key * A)) : NoDup (keys (dict_of_list l)).
Proof.
  unfold dict_of_list.
  assert (H : forall acc, NoDup (keys acc) ->
              NoDup (keys (fold_left
                             (fun d kv => dict_set d (fst kv) (snd kv)) l acc))).
  { induction l as [|kv l IH]; intros acc Hacc; simpl; [assumption|].
    apply IH. now apply NoDup_keys_set. }
  apply H. constructor.
Qed.


Lemma In_lookup d k (v : A) :
  NoDup (keys d) -> In (k, v) d -> lookup k d = Some v.
Proof.
  induction d as [|[k' v'] d IH]; simpl; intros Hnd Hin; [destruct Hin|].
  inversion Hnd as [|? ? Hk Hnd']; subst.
  destruct Hin as [[= -> ->]|Hin]; [now rewrite key_eqb_refl|].
  destruct (key_eqb k k') eqn:E; [|now apply IH].
  apply key_eqb_eq in E. subst. exfalso. apply Hk.
  change k' with (fst (k', v)). now apply in_map.
Qed.

End FlattenFacts.

Lemma NoDup_keys_flatten (x : value) : NoDup (keys (flatten_nested_dict x)).
Proof.
  destruct x; try constructor; apply NoDup_keys_of_list.
Qed.


Lemma flatten_dict_entries (d : dict value) :
  flatten_nested_dict (VDict d) = dict_of_list (entries d).
Proof. reflexivity. Qed.

Lemma keys_entries (k : key) (d : dict value) :
  In k (keys (entries d)) <->
  exists kv, In kv d /\ (fst kv = k \/ In k (keys (nested (snd kv)))).
Proof.
  unfold entries, keys. rewrite flat_map_concat_map, concat_map, map_map.
  rewrite <- flat_map_concat_map, in_flat_map. simpl.
  split; intros (kv & Hin & H); exists kv; (split; [assumption|]); tauto.
Qed.




(** * Further properties *)

(** ** The combinations of a specification *)

Lemma In_dict_set (A : Type) (d : dict A) (k : key) (v : A) :
  forall k' v',
    In (k', v') (dict_set d k v) -> In (k', v') d \/ (k' = k /\ v' = v).
Proof.
  induction d as [|[k0 v0] d IH]; simpl; intros k' v' Hin.
  - destruct Hin as [[= <- <-]|[]]. now right.
  - destruct (key_eqb k k0) eqn:E.
    + apply key_eqb_eq in E. subst k0.
      destruct Hin as [[= <- <-]|Hin]; [now right|left; now right].
    + destruct Hin as [Heq|Hin]; [left; now left|].
      destruct (IH _ _ Hin); [left; now right|now right].
Qed.

Lemma In_fold_set (A B : Type) (h : key * B -> A) (l : list (key * B)) :
  forall acc k v,
    In (k, v) (fold_left (fun r kv => dict_set r (fst kv) (h kv)) l acc) ->
    In (k, v) acc \/ exists kv, In kv l /\ fst kv = k /\ h kv = v.
Proof.
  induction l as [|kv l IH]; simpl; intros acc k v Hin; [now left|].
  destruct (IH _ _ _ Hin) as [Hacc|(kv' & Hl & Hk & Hv)].
  - destruct (In_dict_set _ _ _ _ _ Hacc) as [?|[-> ->]]; [now left|].
    right. exists kv. auto.
  - right. exists kv'. auto.
Qed.

Lemma In_dict_of_list (A : Type) (l : list (key * A)) (k : key) (v : A) :
  In (k, v) (dict_of_list l) -> In (k, v) l.
Proof.
  intros Hin. apply (In_fold_set (fun kv => snd kv)) in Hin.
  destruct Hin as [[]|([k' v'] & Hl & Hk & Hv)]. simpl in *. now subst.
Qed.

Lemma In_cross (A : Type) (pools : list (list A)) :
  forall item, In item (cross pools) <-> Forall2 (@In A) item pools.
Proof.
  induction pools as [|pool rest IH]; intros item; simpl.
  - split.
    + intros [<-|[]]. constructor.
    + inversion 1. now left.
  - rewrite in_flat_map. split.
    + intros (x & Hx & Hin). apply in_map_iff in Hin as (c & <- & Hc).
      constructor; [assumption|now apply IH].
    + inversion 1 as [|x c ? ? Hx Hc]; subst. exists x. split; [assumption|].
      apply in_map. now apply IH.
Qed.

Lemma Forall2_In_l (A B : Type) (R : A -> B -> Prop) (xs : list A) (ys : list B) :
  Forall2 R xs ys -> forall x, In x xs -> exists y, In y ys /\ R x y.
Proof.
  induction 1 as [|x0 y0 xs ys HR _ IH]; intros x Hin; [destruct Hin|].
  destruct Hin as [<-|Hin].
  - exists y0. split; [now left|assumption].
  - destruct (IH _ Hin) as (y & Hy & Hxy). exists y. split; [now right|assumption].
Qed.

(** The dictionary [ret] of the mapping branch holds, under every key, the
    expansion of a value of the mapping. *)
Lemma In_ret (d : dict value) (k : key) (pool : list value) :
  In (k, pool)
     (fold_left (fun ret kv => dict_set ret (fst kv) (assemble (snd kv))) d []) ->
  exists kv, In kv d /\ fst kv = k /\ assemble (snd kv) = pool.
Proof.
  intros Hin. apply (In_fold_set (fun kv => assemble (snd kv))) in Hin.
  now destruct Hin as [[]|H].
Qed.

(** X1. Every combination that the expansion returns is concrete: it holds
    no option node (tuple) at any depth. *)
Theorem assemble_concrete (specification : value) :
  forall c, In c (assemble specification) -> option_free c = true.
Proof.
  induction specification as [| z | s | f | l IH | l IH | d IH] using value_ind;
    try (intros c [<-|[]]; reflexivity); intros c Hc;
    cbn [assemble] in Hc.
  - apply in_concat in Hc as (pool & Hpool & Hc).
    apply in_map_iff in Hpool as (x & <- & Hx).
    rewrite Forall_forall in IH. now apply (IH x).
  - rewrite product_cross in Hc. apply in_map_iff in Hc as (items & <- & Hitems).
    apply In_cross in Hitems. cbn [option_free]. apply forallb_forall.
    intros item Hitem.
    destruct (Forall2_In_l Hitems _ Hitem) as (pool & Hpool & Hin).
    apply in_map_iff in Hpool as (x & <- & Hx).
    rewrite Forall_forall in IH. now apply (IH x).
  - rewrite product_cross in Hc. apply in_map_iff in Hc as (item & <- & Hitem).
    apply In_cross in Hitem. cbn [option_free]. apply forallb_forall.
    intros [k v] Hkv. cbn [snd].
    apply In_dict_of_list, in_combine_r in Hkv.
    destruct (Forall2_In_l Hitem _ Hkv) as (pool & Hpool & Hin).
    apply in_map_iff in Hpool as ([k' pool'] & Heq & Hret). simpl in Heq. subst.
    apply In_ret in Hret as (kv & Hkvd & _ & <-).
    rewrite Forall_forall in IH. now apply (IH kv).
Qed.

Lemma assemble_concrete_witness :
  option_free (VList [stage_1; stage_3; stage_4]) = true.
Proof.
  apply (@assemble_concrete example_specification).
  right. right. left. reflexivity.
Defined.

Lemma keys_combine (A : Type) (ks : list key) (item : list A) :
  length item = length ks -> keys (combine ks item) = ks.
Proof.
  revert item. induction ks as [|k ks IH]; intros [|x item] Hlen; simpl in *;
    try discriminate; [reflexivity|].
  f_equal. apply IH. lia.
Qed.

(** The mapping branch on a dictionary: one combination for every element
    of the cross-product of the expansions of the values, under the keys
    of the dictionary. *)
Lemma assemble_mapping (d : dict value) :
  NoDup (keys d) ->
  assemble (VDict d)
  = map (fun item => VDict (combine (keys d) item))
        (cross (map (fun kv => assemble (snd kv)) d)).
Proof.
  intros Hnd. cbn [assemble].
  rewrite (fold_set_new (fun kv => assemble (snd kv)));
    [|assumption|intros ? _ []].
  cbn [app]. unfold keys at 1, values. rewrite !map_map. cbn [fst snd].
  change (map (fun x : key * value => fst x) d) with (keys d).
  rewrite product_cross. apply map_ext_in. intros item Hitem.
  apply cross_item_length in Hitem. rewrite length_map in Hitem.
  rewrite dict_of_list_distinct; [reflexivity|].
  change (map fst (combine (keys d) item)) with (keys (combine (keys d) item)).
  rewrite keys_combine; [assumption|]. unfold keys. now rewrite length_map.
Qed.

(** X2. The number of combinations of a specification: the sum of the
    numbers of the alternatives for an option, the product of the numbers
    of the children for a list and for a mapping, one for an atom. *)
Theorem assemble_count (specification : value) :
  wf specification = true ->
  length (assemble specification) = count specification.
Proof.
  induction specification as [| z | s | f | l IH | l IH | d IH] using value_ind;
    intros Hwf; try reflexivity; cbn [wf] in Hwf;
    rewrite Forall_forall in IH.
  - rewrite forallb_forall in Hwf. cbn [assemble count].
    rewrite length_concat, map_map. f_equal. apply map_ext_in. auto.
  - rewrite forallb_forall in Hwf. cbn [assemble count].
    rewrite product_cross, length_map, length_cross, map_map. f_equal.
    apply map_ext_in. auto.
  - apply andb_true_iff in Hwf as [Hnd Hwf]. apply distinct_NoDup in Hnd.
    rewrite forallb_forall in Hwf. rewrite assemble_mapping by assumption.
    cbn [count]. rewrite length_map, length_cross, map_map. f_equal.
    apply map_ext_in. auto.
Qed.

Lemma assemble_count_witness :
  length (assemble example_specification) = 4.
Proof.
  apply (@assemble_count example_specification). reflexivity.
Defined.

(** X4. The combinations of a list are the lists that hold, at every
    position, one of the combinations of the child at that position: each
    such choice is a combination, and there is no other. *)
Theorem assemble_sequence_members (children : list value) (c : value) :
  In c (assemble (VList children)) <->
  exists items,
    c = VList items /\
    Forall2 (fun item child => In item (assemble child)) items children.
Proof.
  cbn [assemble]. rewrite product_cross, in_map_iff.
  assert (Hpools :
            forall items,
              Forall2 (@In value) items (map assemble children)
              <-> Forall2 (fun item child => In item (assemble child))
                          items children).
  { intros items. revert items.
    induction children as [|x children IH]; intros items; simpl.
    - split; inversion 1; constructor.
    - split; inversion 1; subst; constructor; try assumption; now apply IH. }
  split.
  - intros (items & <- & Hitems). exists items.
    split; [reflexivity|]. now apply Hpools, In_cross.
  - intros (items & -> & Hitems). exists items.
    split; [reflexivity|]. now apply In_cross, Hpools.
Qed.

(** X5. An option among the alternatives of an option adds its own
    alternatives in its place: nesting options does not change the
    combinations nor their order. *)
Theorem assemble_nested_option (pre inner post : list value) :
  assemble (VTuple (pre ++ VTuple inner :: post))
  = assemble (VTuple (pre ++ inner ++ post)).
Proof.
  cbn [assemble]. rewrite !map_app. cbn [map assemble].
  rewrite !concat_app. reflexivity.
Qed.

Lemma assemble_sequence_members_witness :
  In (VList [VInt 2; VInt 3])
     (assemble (VList [VTuple [VInt 1; VInt 2]; VInt 3])).
Proof.
  apply (proj2 (@assemble_sequence_members
                  [VTuple [VInt 1; VInt 2]; VInt 3] (VList [VInt 2; VInt 3]))).
  exists [VInt 2; VInt 3]. split; [reflexivity|].
  constructor; [right; left; reflexivity|].
  constructor; [left; reflexivity|constructor].
Defined.

(** ** Flattening of a combination *)

Lemma flatten_item_flat (item : value) :
  Forall (fun st => is_list st = false) (flatten_item item).
Proof.
  induction item as [| z | s | f | l IH | l IH | d IH] using value_ind;
    try (repeat constructor).
  cbn [flatten_item]. induction IH as [|x l Hx _ IHl]; simpl; [constructor|].
  apply Forall_app. now split.
Qed.

Lemma flatten_items_fixed (p : list value) :
  Forall (fun st => is_list st = false) p -> flat_map flatten_item p = p.
Proof.
  induction 1 as [|st p Hst _ IH]; simpl; [reflexivity|].
  rewrite IH. now destruct st.
Qed.

(** X6. Flattening a list never fails and returns a list that holds no
    list; a list that holds no list is returned as it is, so that
    flattening twice gives what flattening once gives. *)
Theorem construct_flat (l : list value) :
  exists p,
    construct (VList l) = Ok p /\
    Forall (fun st => is_list st = false) p /\
    construct (VList p) = Ok p /\
    (Forall (fun st => is_list st = false) l -> p = l).
Proof.
  exists (flat_map flatten_item l). unfold construct, flatten_nested_list.
  cbn [iter bind].
  assert (Hflat : Forall (fun st => is_list st = false)
                         (flat_map flatten_item l)).
  { induction l as [|x l IH]; simpl; [constructor|].
    apply Forall_app. split; [apply flatten_item_flat|exact IH]. }
  repeat split.
  - exact Hflat.
  - now rewrite flatten_items_fixed.
  - apply flatten_items_fixed.
Qed.

Lemma construct_flat_witness :
  construct (VList [stage_1; stage_5]) = Ok [stage_1; stage_5].
Proof.
  destruct (construct_flat [stage_1; stage_5]) as (p & Hp & _ & _ & Hsame).
  rewrite Hp. f_equal. apply Hsame. repeat constructor.
Defined.

(** X7. A list among the items of a list is flattened in its place: the
    stages of a nested list run as if they stood in the outer list. *)
Theorem construct_nested (pre inner post : list value) :
  construct (VList (pre ++ VList inner :: post))
  = construct (VList (pre ++ inner ++ post)).
Proof.
  unfold construct, flatten_nested_list. cbn [iter bind].
  rewrite !flat_map_app. cbn [flat_map flatten_item]. reflexivity.
Qed.

(** ** The driver *)

Section DriverFacts.
Variable call : string -> list value -> list (string * value) -> result value.
Variables (args : list value) (kwargs : list (string * value)).

Lemma transform_loop_prefix (pre rest : list value) :
  forallb (contained call args kwargs) pre = true ->
  forall results,
    transform_loop call (pre ++ rest) args kwargs results
    = transform_loop call rest args kwargs
                     (results ++ successes call args kwargs pre).
Proof.
  induction pre as [|c pre IH]; intros Hall results; simpl.
  - now rewrite app_nil_r.
  - simpl in Hall. apply andb_true_iff in Hall as [Hc Hpre].
    unfold contained in Hc. unfold outcome.
    destruct (construct c) as [p|]; [|discriminate]. cbn [bind].
    destruct (run_pipeline call p args kwargs) as [r|e].
    + rewrite (IH Hpre), <- app_assoc. reflexivity.
    + apply andb_true_iff in Hc as [He Hp].
      rewrite He, (print_exn_printable _ Hp). apply (IH Hpre).
Qed.

Lemma transform_loop_returns (specifications : list value) :
  forall results rs,
    transform_loop call specifications args kwargs results = Ok rs ->
    forallb (contained call args kwargs) specifications = true /\
    rs = results ++ successes call args kwargs specifications.
Proof.
  induction specifications as [|c rest IH]; intros results rs H; simpl in *.
  - injection H as <-. now rewrite app_nil_r.
  - unfold contained, outcome.
    destruct (construct c) as [p|]; [|discriminate]. cbn [bind] in *.
    destruct (run_pipeline call p args kwargs) as [r|e].
    + destruct (IH _ _ H) as [Hall ->]. now rewrite <- app_assoc.
    + destruct (is_Exception e); [|discriminate]. unfold printable.
      destruct (print_exn e); [|discriminate]. now apply IH.
Qed.

Lemma run_pipeline_clash (pipeline : list value) :
  clashes kwargs = true ->
  run_pipeline call pipeline args kwargs = Raise TypeError.
Proof.
  intros H. unfold run_pipeline. now rewrite H.
Qed.
End DriverFacts.

(** X8. The flattening of a combination is outside the [try] of
    [transform]: when the loop goes on after each of the combinations
    before it (each can be flattened, and returns or raises an exception
    under [Exception] that can be printed) and a combination cannot be
    flattened, [transform] raises the exception of the flattening, and
    the results collected so far are lost. *)
Theorem transform_flatten_failure call (specification : value)
        (args : list value) (kwargs : list (string * value))
        (pre post : list value) (c : value) (e : exn) :
  assemble specification = pre ++ c :: post ->
  forallb (contained call args kwargs) pre = true ->
  construct c = Raise e ->
  transform call specification args kwargs = Raise e.
Proof.
  intros Hspec Hpre Hc. unfold transform.
  rewrite Hspec, transform_loop_prefix by assumption.
  cbn [transform_loop]. now rewrite Hc.
Qed.

Lemma transform_flatten_failure_witness :
  transform demo_call (VTuple [VList [stage_1]; VInt 5; VList [stage_5]])
            [example_data] []
  = Raise TypeError.
Proof.
  apply (@transform_flatten_failure
           demo_call (VTuple [VList [stage_1]; VInt 5; VList [stage_5]])
           [example_data] [] [VList [stage_1]] [VList [stage_5]] (VInt 5)
           TypeError eq_refl eq_refl eq_refl).
Defined.

(** X9. [transform] returns a list exactly when every combination can be
    flattened and the execution of none raises an exception that is
    outside [Exception] or that cannot be printed; the list is then the
    list of the results of the combinations whose execution returns, in
    the order of the combinations. *)
Theorem transform_returns call (specification : value)
        (args : list value) (kwargs : list (string * value))
        (rs : list env) :
  transform call specification args kwargs = Ok rs <->
  forallb (contained call args kwargs) (assemble specification) = true /\
  rs = successes call args kwargs (assemble specification).
Proof.
  unfold transform. split.
  - intros H. now apply transform_loop_returns in H.
  - intros [Hall ->]. now rewrite transform_loop_contained.
Qed.

(** X10. The clause [except Exception] lets through an exception whose
    class is not under [Exception]: when the loop goes on after each of
    the combinations before it (each can be flattened, and returns or
    raises an exception under [Exception] that can be printed) and the
    execution of a combination raises such an exception, [transform]
    raises it. *)
Theorem transform_escape call (specification : value)
        (args : list value) (kwargs : list (string * value))
        (pre post : list value) (c : value) (pipeline : list value) (e : exn) :
  assemble specification = pre ++ c :: post ->
  forallb (contained call args kwargs) pre = true ->
  construct c = Ok pipeline ->
  run_pipeline call pipeline args kwargs = Raise e ->
  is_Exception e = false ->
  transform call specification args kwargs = Raise e.
Proof.
  intros Hspec Hpre Hc Hrun He. unfold transform.
  rewrite Hspec, transform_loop_prefix by assumption.
  cbn [transform_loop]. rewrite Hc. cbn [bind]. now rewrite Hrun, He.
Qed.

Lemma transform_escape_witness :
  transform demo_call
            (VTuple [VList [stage_1]; VList [stage "exit" [] []];
                     VList [stage_5]])
            [example_data] []
  = Raise (SystemExit 1).
Proof.
  apply (@transform_escape
           demo_call
           (VTuple [VList [stage_1]; VList [stage "exit" [] []];
                    VList [stage_5]])
           [example_data] [] [VList [stage_1]] [VList [stage_5]]
           (VList [stage "exit" [] []]) [stage "exit" [] []]
           (SystemExit 1) eq_refl eq_refl eq_refl eq_refl eq_refl).
Defined.

(** X11. A named input called [pipeline] makes every execution fail: when
    every combination can be flattened, [transform] returns the empty
    list. *)
Theorem transform_pipeline_named call (specification : value)
        (args : list value) (kwargs : list (string * value)) :
  clashes kwargs = true ->
  (forall c, In c (assemble specification) -> exists p, construct c = Ok p) ->
  transform call specification args kwargs = Ok [].
Proof.
  intros Hclash Hflat. unfold transform.
  assert (H : forall specs,
             (forall c, In c specs -> exists p, construct c = Ok p) ->
             forallb (contained call args kwargs) specs = true /\
             successes call args kwargs specs = []).
  { induction specs as [|c specs IH]; intros Hall; [now split|].
    destruct (Hall c (or_introl eq_refl)) as (p & Hp).
    destruct IH as [IH1 IH2]; [intros; apply Hall; now right|].
    simpl. unfold contained at 1, outcome. rewrite Hp. cbn [bind].
    rewrite run_pipeline_clash by assumption. now split. }
  destruct (H _ Hflat) as [Hall Hnone].
  now rewrite transform_loop_contained, Hnone.
Qed.

Lemma transform_pipeline_named_witness :
  transform demo_call example_specification [example_data]
            [("pipeline", VInt 5)]
  = Ok [].
Proof.
  apply (@transform_pipeline_named demo_call example_specification
                                   [example_data] [("pipeline", VInt 5)]).
  - reflexivity.
  - intros c [<-|[<-|[<-|[<-|[]]]]]; eexists; reflexivity.
Defined.

Lemma transform_returns_witness :
  transform demo_call example_specification [example_data] []
  = Ok (successes demo_call [example_data] [] (assemble example_specification)).
Proof.
  apply (proj2 (@transform_returns
                  demo_call example_specification [example_data] []
                  (successes demo_call [example_data] []
                             (assemble example_specification)))).
  split; reflexivity.
Defined.

(** ** The environment of an execution *)

Lemma lookup_seed_below (args : list value) :
  forall data i0 j,
    j < i0 ->
    lookup (KInt (Z.of_nat j)) (seed data i0 args)
    = lookup (KInt (Z.of_nat j)) data.
Proof.
  induction args as [|arg args IH]; intros data i0 j Hlt; simpl; [reflexivity|].
  rewrite IH by lia. apply lookup_set_other. intros [=]. lia.
Qed.

Lemma lookup_seed_index (args : list value) :
  forall data i0 j v,
    nth_error args j = Some v ->
    lookup (KInt (Z.of_nat (i0 + j))) (seed data i0 args) = Some v.
Proof.
  induction args as [|arg args IH]; intros data i0 [|j] v Hv; simpl in *;
    try discriminate.
  - injection Hv as ->. rewrite Nat.add_0_r, lookup_seed_below by lia.
    apply lookup_set_same.
  - replace (i0 + S j) with (S i0 + j) by lia. now apply IH.
Qed.

Lemma NoDup_keys_seed (args : list value) :
  forall data i0, NoDup (keys data) -> NoDup (keys (seed data i0 args)).
Proof.
  induction args as [|arg args IH]; intros data i0 Hnd; simpl; [assumption|].
  apply IH. now apply NoDup_keys_set.
Qed.

Lemma NoDup_keys_named (kwargs : list (string * value)) :
  NoDup (map fst kwargs) ->
  NoDup (keys (map (fun nv => (KStr (fst nv), snd nv)) kwargs)).
Proof.
  unfold keys. rewrite map_map. cbn [fst].
  induction kwargs as [|[n v] kwargs IH]; simpl; intros Hnd; [constructor|].
  inversion Hnd as [|? ? Hn Hnd']; subst. constructor; [|now apply IH].
  rewrite in_map_iff. intros ([n' v'] & [= ->] & Hin). apply Hn.
  change n with (fst (n, v')). now apply in_map.
Qed.

Lemma NoDup_keys_init (pipeline args : list value)
      (kwargs : list (string * value)) :
  NoDup (map fst kwargs) -> NoDup (keys (init_data pipeline args kwargs)).
Proof.
  intros Hnd. unfold init_data.
  now apply NoDup_keys_seed, NoDup_keys_set, NoDup_keys_named.
Qed.

(** X12. The environment before the first stage binds every positional
    input to its index and every named input, other than one called
    [pipeline], to its name. *)
Theorem init_data_inputs (pipeline args : list value)
        (kwargs : list (string * value)) :
  (forall i v,
      nth_error args i = Some v ->
      lookup (KInt (Z.of_nat i)) (init_data pipeline args kwargs) = Some v) /\
  (forall n v,
      NoDup (map fst kwargs) ->
      In (n, v) kwargs ->
      n <> "pipeline" ->
      lookup (KStr n) (init_data pipeline args kwargs) = Some v).
Proof.
  unfold init_data. split.
  - intros i v Hv. now apply (lookup_seed_index _ _ 0).
  - intros n v Hnd Hin Hn. rewrite lookup_seed_name.
    rewrite lookup_set_other by congruence.
    apply In_lookup; [now apply NoDup_keys_named|].
    change (KStr n, v) with ((fun nv : string * value => (KStr (fst nv), snd nv)) (n, v)).
    now apply in_map.
Qed.

Lemma init_data_inputs_witness :
  lookup (KInt 1) (init_data [stage_1] [VInt 7; VInt 8] [("y", VInt 2)])
  = Some (VInt 8) /\
  lookup (KStr "y") (init_data [stage_1] [VInt 7; VInt 8] [("y", VInt 2)])
  = Some (VInt 2).
Proof.
  destruct (init_data_inputs [stage_1] [VInt 7; VInt 8] [("y", VInt 2)])
    as [Hpos Hnamed].
  split.
  - apply (Hpos 1). reflexivity.
  - apply Hnamed.
    + repeat constructor. intros [].
    + left. reflexivity.
    + discriminate.
Defined.

(** X13. What no stage overwrites is in the result: in the environment
    that an execution returns, a positional input is bound to its index
    when no stage lists that index in its [out], and ['pipeline'] is bound
    to the stage list when no stage lists it in its [out]. *)
Theorem inputs_survive call (pipeline args : list value)
        (kwargs : list (string * value)) (data : env) :
  run_pipeline call pipeline args kwargs = Ok data ->
  (forall i v,
      nth_error args i = Some v ->
      (forall st, In st pipeline -> ~ writes st (KInt (Z.of_nat i))) ->
      lookup (KInt (Z.of_nat i)) data = Some v) /\
  ((forall st, In st pipeline -> ~ writes st (KStr "pipeline")) ->
   lookup (KStr "pipeline") data = Some (VList pipeline)).
Proof.
  unfold run_pipeline. destruct (clashes kwargs); [discriminate|].
  intros Hrun. split.
  - intros i v Hv Hfree.
    rewrite (@run_stages_other call _ _ _ _ Hrun Hfree).
    unfold init_data. now apply (lookup_seed_index _ _ 0).
  - intros Hfree.
    rewrite (@run_stages_other call _ _ _ _ Hrun Hfree).
    apply lookup_init_pipeline.
Qed.

Lemma inputs_survive_witness :
  lookup (KInt 0)
         [(KStr "pipeline", VList [stage_1]); (KInt 0, example_data);
          (KInt 1, VInt 6)]
  = Some example_data.
Proof.
  apply (proj1 (@inputs_survive
                  demo_call [stage_1] [example_data] []
                  [(KStr "pipeline", VList [stage_1]); (KInt 0, example_data);
                   (KInt 1, VInt 6)] eq_refl) 0 example_data eq_refl).
  intros st [<-|[]] (d & outs & out & Hd & Houts & Hin & Hk).
  injection Hd as <-. injection Houts as <-.
  destruct Hin as [<-|[]]. discriminate.
Defined.

Lemma In_keys_lookup (A : Type) (d : dict A) (k : key) :
  In k (keys d) <-> lookup k d <> None.
Proof.
  induction d as [|[k' v'] d IH]; simpl.
  - split; [intros []|congruence].
  - destruct (key_eqb k k') eqn:E.
    + apply key_eqb_eq in E. subst. split; [discriminate|now left].
    + apply key_eqb_neq in E. rewrite <- IH.
      split; [intros [Heq|Hin]; [congruence|assumption]|now right].
Qed.

Lemma store_keys (outs : list value) :
  forall data i outputs data',
    store data outs i outputs = Ok data' ->
    (forall k, In k (keys data) -> In k (keys data')) /\
    (NoDup (keys data) -> NoDup (keys data')).
Proof.
  induction outs as [|out outs IH]; intros data i outputs data' H; simpl in H.
  - injection H as ->. now split.
  - destruct (nth_error outputs i) as [v|]; [|discriminate].
    destruct (to_key out) as [k0|]; [|discriminate].
    destruct (IH _ _ _ _ H) as [Hin Hnd]. split.
    + intros k Hk. apply Hin, keys_dict_set. now right.
    + intros Hd. now apply Hnd, NoDup_keys_set.
Qed.

Lemma run_stages_keys call (pipeline : list value) :
  forall data data',
    run_stages call pipeline data = Ok data' ->
    (forall k, In k (keys data) -> In k (keys data')) /\
    (NoDup (keys data) -> NoDup (keys data')).
Proof.
  induction pipeline as [|st pipeline IH]; intros data data' H; simpl in H.
  - injection H as ->. now split.
  - bind_inv H. destruct (IH _ _ H) as [Hin Hnd].
    destruct st; try discriminate. unfold run_stage in Hx.
    bind_inv Hx. bind_inv Hx. apply store_keys in Hx as [Hin0 Hnd0].
    split; auto.
Qed.

(** X14. An execution removes no sink: every key of the environment
    before the first stage is a key of the returned environment, and no
    key occurs twice in it when the names of the named inputs are
    distinct. Every result of [transform] so has the key ['pipeline'], the
    index of every positional input and the name of every named input. *)
Theorem results_keep_inputs call (specification : value)
        (args : list value) (kwargs : list (string * value))
        (rs : list env) :
  NoDup (map fst kwargs) ->
  transform call specification args kwargs = Ok rs ->
  forall r,
    In r rs ->
    NoDup (keys r) /\
    In (KStr "pipeline") (keys r) /\
    (forall i, i < length args -> In (KInt (Z.of_nat i)) (keys r)) /\
    (forall n v, In (n, v) kwargs -> In (KStr n) (keys r)).
Proof.
  intros Hnames Hrun r Hr. unfold transform in Hrun.
  apply transform_loop_returns in Hrun as [_ ->]. cbn [app] in Hr.
  assert (Hout : exists p, run_pipeline call p args kwargs = Ok r).
  { induction (assemble specification) as [|c cs IH]; [destruct Hr|].
    simpl in Hr. unfold outcome in Hr at 1.
    destruct (construct c) as [p|]; cbn [bind] in Hr; [|now apply IH].
    destruct (run_pipeline call p args kwargs) as [r'|] eqn:Hp; [|now apply IH].
    destruct Hr as [<-|Hr]; [now exists p|now apply IH]. }
  destruct Hout as (p & Hp). unfold run_pipeline in Hp.
  destruct (clashes kwargs) eqn:Hclash; [discriminate|].
  apply run_stages_keys in Hp as [Hin Hnd].
  split; [now apply Hnd, NoDup_keys_init|]. split; [|split].
  - apply Hin, In_keys_lookup. now rewrite lookup_init_pipeline.
  - intros i Hi. apply Hin, In_keys_lookup.
    destruct (nth_error args i) as [v|] eqn:Hv;
      [|apply nth_error_None in Hv; lia].
    unfold init_data. now rewrite (lookup_seed_index _ _ 0 _ Hv).
  - intros n v Hnv. apply Hin, In_keys_lookup.
    assert (Hn : n <> "pipeline").
    { intros ->. unfold clashes in Hclash.
      assert (Hex : existsb (fun nv : string * value =>
                               String.eqb (fst nv) "pipeline") kwargs = true)
        by (apply existsb_exists; exists ("pipeline", v); now split).
      congruence. }
    unfold init_data. rewrite lookup_seed_name.
    rewrite lookup_set_other by congruence.
    rewrite (@In_lookup _ _ (KStr n) v); [discriminate|now apply NoDup_keys_named|].
    change (KStr n, v)
      with ((fun nv : string * value => (KStr (fst nv), snd nv)) (n, v)).
    now apply in_map.
Qed.

Lemma results_keep_inputs_witness :
  In (KStr "y")
     (keys [(KStr "y", VInt 2); (KStr "pipeline", VList [stage_1]);
            (KInt 0, example_data); (KInt 1, VInt 6)]).
Proof.
  assert (Hnames : NoDup (map fst [("y", VInt 2)]))
    by (repeat constructor; intros []).
  apply (proj2 (proj2 (proj2
           (@results_keep_inputs
              demo_call (VList [stage_1]) [example_data] [("y", VInt 2)]
              [[(KStr "y", VInt 2); (KStr "pipeline", VList [stage_1]);
                (KInt 0, example_data); (KInt 1, VInt 6)]]
              Hnames eq_refl _ (or_introl eq_refl))))
           "y" (VInt 2)).
  left. reflexivity.
Defined.

(** ** Failures of a stage *)

Lemma store_too_few (outs : list value) :
  forall data i outputs,
    i <= length outputs ->
    length outputs - i < length outs ->
    forallb hashable (firstn (length outputs - i) outs) = true ->
    store data outs i outputs = Raise IndexError.
Proof.
  induction outs as [|out outs IH]; intros data i outputs Hi Hlen Hhash;
    simpl in *; [lia|].
  destruct (nth_error outputs i) as [v|] eqn:Hv; [|reflexivity].
  assert (Hlt : i < length outputs) by (apply nth_error_Some; congruence).
  replace (length outputs - i) with (S (length outputs - S i)) in * by lia.
  simpl in Hhash. apply andb_true_iff in Hhash as [Hout Hrest].
  unfold hashable in Hout. destruct (to_key out); [|discriminate].
  apply IH; [lia|lia|assumption].
Qed.

(** X15. A stage whose function returns fewer outputs than its [out]
    names sinks (a tuple shorter than [out], or a value that is not a
    tuple for two sinks or more) fails with an [IndexError], when the
    sinks that get an output are hashable. *)
Theorem stage_too_few_outputs call (d : dict value) (data : env)
        (ret : value) (outs : list value) :
  stage_return call d data = Ok ret ->
  stage_out d = Ok outs ->
  length (as_tuple ret) < length outs ->
  forallb hashable (firstn (length (as_tuple ret)) outs) = true ->
  run_stage call (VDict d) data = Raise IndexError.
Proof.
  intros Hret Hout Hlen Hhash. unfold run_stage, stage_outputs.
  rewrite Hret, Hout. cbn [bind].
  apply store_too_few; rewrite ?Nat.sub_0_r; [lia|assumption|assumption].
Qed.

Lemma stage_too_few_outputs_witness :
  run_stage demo_call (stage "id" [VInt 0] [VStr "a"; VStr "b"])
            [(KInt 0, VInt 7)]
  = Raise IndexError.
Proof.
  apply (@stage_too_few_outputs
           demo_call (stage_dict "id" [VInt 0] [VStr "a"; VStr "b"])
           [(KInt 0, VInt 7)] (VInt 7) [VStr "a"; VStr "b"]
           eq_refl eq_refl).
  - simpl. lia.
  - reflexivity.
Defined.

Lemma run_stage_missing_sink_witness :
  run_stage demo_call (stage "id" [VStr "undeclared"] [VInt 2])
            [(KInt 0, VInt 7)]
  = Raise (KeyError (KStr "undeclared")).
Proof.
  apply (proj1 (@run_stage_missing_sink
                  demo_call (stage_dict "id" [VStr "undeclared"] [VInt 2])
                  [(KInt 0, VInt 7)] (VList [VStr "undeclared"])
                  [] [] (VStr "undeclared") (KStr "undeclared") []
                  eq_refl eq_refl eq_refl eq_refl eq_refl)).
Defined.

(** X17. The keys ['in'] and ['function'] of a stage are required: a
    stage without ['in'] fails with the [KeyError] of ['in'] whatever the
    environment holds, and a stage without ['function'] whose inputs are
    all found fails with the [KeyError] of ['function']. *)
Theorem stage_required_keys call (d : dict value) (data : env) :
  (has_key (KStr "in") d = false ->
   run_stage call (VDict d) data = Raise (KeyError (KStr "in"))) /\
  (forall ins items vs,
      has_key (KStr "function") d = false ->
      getitem d "in" = Ok ins ->
      iter ins = Ok items ->
      resolve data items = Ok vs ->
      run_stage call (VDict d) data = Raise (KeyError (KStr "function"))).
Proof.
  split.
  - intros Hin. unfold run_stage, stage_outputs, stage_return.
    now rewrite (getitem_missing _ _ Hin).
  - intros ins items vs Hf Hin Hiter Hres.
    unfold run_stage, stage_outputs, stage_return.
    rewrite Hin. cbn [bind]. rewrite Hiter. cbn [bind]. rewrite Hres.
    cbn [bind]. rewrite (getitem_missing _ _ Hf).
    now destruct (has_key (KStr "kwargs") d).
Qed.

Lemma stage_required_keys_witness :
  run_stage demo_call (VDict [(KStr "function", VFun "four")]) []
  = Raise (KeyError (KStr "in")) /\
  run_stage demo_call (VDict [(KStr "in", VList [VInt 0])]) [(KInt 0, VInt 7)]
  = Raise (KeyError (KStr "function")).
Proof.
  split.
  - apply (proj1 (@stage_required_keys
                    demo_call [(KStr "function", VFun "four")] [])).
    reflexivity.
  - apply (proj2 (@stage_required_keys
                    demo_call [(KStr "in", VList [VInt 0])] [(KInt 0, VInt 7)])
             (VList [VInt 0]) [VInt 0] [VInt 7]); reflexivity.
Defined.

Lemma resolve_values (data : env) (items vs : list value) :
  Forall2 (fun inp v => exists k, to_key inp = Some k /\ lookup k data = Some v)
          items vs ->
  resolve data items = Ok vs.
Proof.
  induction 1 as [|inp v items vs (k & Hk & Hv) _ IH]; simpl; [reflexivity|].
  unfold data_get. now rewrite Hk, Hv, IH.
Qed.

Lemma keywords_named (kws : list (string * value)) :
  keywords (map (fun nv => (KStr (fst nv), snd nv)) kws) = Ok kws.
Proof.
  induction kws as [|[n v] kws IH]; simpl; [reflexivity|]. now rewrite IH.
Qed.

Lemma getitem_has_key (d : dict value) (name : string) (v : value) :
  getitem d name = Ok v -> has_key (KStr name) d = true.
Proof.
  unfold getitem, has_key. intros H. apply existsb_key_In, In_keys_lookup.
  destruct (lookup (KStr name) d); [discriminate|discriminate].
Qed.

(** X18. The function of a stage is called on the values of the sinks
    that ['in'] lists, in the order of ['in'], with no named argument
    when the stage has no ['kwargs'] and with the entries of ['kwargs'] as
    named arguments when it has: the stage returns or raises what that
    call returns or raises. *)
Theorem stage_call_arguments call (d : dict value) (data : env)
        (ins : value) (items vs : list value) (f : string) :
  getitem d "in" = Ok ins ->
  iter ins = Ok items ->
  Forall2 (fun inp v => exists k, to_key inp = Some k /\ lookup k data = Some v)
          items vs ->
  getitem d "function" = Ok (VFun f) ->
  (has_key (KStr "kwargs") d = false ->
   stage_return call d data = call f vs []) /\
  (forall kws,
      getitem d "kwargs"
      = Ok (VDict (map (fun nv => (KStr (fst nv), snd nv)) kws)) ->
      stage_return call d data = call f vs kws).
Proof.
  intros Hin Hiter Hvs Hf. unfold stage_return.
  rewrite Hin. cbn [bind]. rewrite Hiter. cbn [bind].
  rewrite (@resolve_values data items vs Hvs). cbn [bind]. rewrite Hf. cbn [bind]. split.
  - now intros ->.
  - intros kws Hkw. rewrite (@getitem_has_key d "kwargs" _ Hkw), Hkw.
    cbn [bind as_kwargs].
    now rewrite keywords_named.
Qed.

Lemma stage_call_arguments_witness :
  stage_return demo_call
               [(KStr "function", VFun "mul"); (KStr "in", VList [VInt 1]);
                (KStr "out", VList [VInt 2]);
                (KStr "kwargs", VDict [(KStr "y", VInt 2)])]
               [(KInt 1, VInt 6)]
  = demo_call "mul" [VInt 6] [("y", VInt 2)].
Proof.
  assert (Hvs : Forall2
                  (fun inp v =>
                     exists k, to_key inp = Some k /\
                               lookup k [(KInt 1, VInt 6)] = Some v)
                  [VInt 1] [VInt 6]).
  { constructor; [|constructor]. exists (KInt 1). split; reflexivity. }
  apply (proj2 (@stage_call_arguments
                  demo_call
                  [(KStr "function", VFun "mul"); (KStr "in", VList [VInt 1]);
                   (KStr "out", VList [VInt 2]);
                   (KStr "kwargs", VDict [(KStr "y", VInt 2)])]
                  [(KInt 1, VInt 6)] (VList [VInt 1]) [VInt 1] [VInt 6] "mul"
                  eq_refl eq_refl Hvs eq_refl)
           [("y", VInt 2)]).
  reflexivity.
Defined.

(** ** Filtering and flattening of results *)

Lemma NoDup_keys_filter (A : Type) (P : key * A -> bool) (d : dict A) :
  NoDup (keys d) -> NoDup (keys (filter P d)).
Proof.
  induction d as [|kv d IH]; simpl; intros Hnd; [constructor|].
  inversion Hnd as [|? ? Hk Hnd']; subst.
  destruct (P kv); simpl; [|now apply IH].
  constructor; [|now apply IH].
  intros Hin. apply Hk. unfold keys in *.
  apply in_map_iff in Hin as (kv' & Heq & Hin).
  apply filter_In in Hin as [Hin _]. rewrite <- Heq. now apply in_map.
Qed.

Lemma lookup_filter_keys (A : Type) (cols : list key) (d : dict A) (k : key) :
  lookup k (filter (fun kv => existsb (key_eqb (fst kv)) cols) d)
  = if existsb (key_eqb k) cols then lookup k d else None.
Proof.
  induction d as [|[k' v'] d IH]; simpl.
  - now destruct (existsb (key_eqb k) cols).
  - destruct (key_eqb k k') eqn:E.
    + apply key_eqb_eq in E. subst k'.
      destruct (existsb (key_eqb k) cols) eqn:Hk; simpl.
      * now rewrite key_eqb_refl.
      * rewrite IH. now rewrite ?Hk.
    + destruct (existsb (key_eqb k') cols); simpl; [rewrite E|]; exact IH.
Qed.

(** X19. With a list of columns, every result is replaced by the mapping
    that binds the keys of the (flattened, when asked) result that are in
    the list to their values, and binds no other key. *)
Theorem filter_results_columns (results : list env) (cols : list key)
        (flatten : bool) (i : nat) (r : env) :
  nth_error results i = Some r ->
  flatten = true \/ NoDup (keys r) ->
  exists r',
    nth_error (filter_results results (Some cols) flatten) i = Some r' /\
    NoDup (keys r') /\
    forall k,
      lookup k r'
      = if existsb (key_eqb k) cols
        then lookup k (if flatten then flatten_nested_dict (VDict r) else r)
        else None.
Proof.
  intros Hr Hwf.
  set (base := if flatten then flatten_nested_dict (VDict r) else r).
  assert (Hbase : NoDup (keys base)).
  { unfold base. destruct flatten; [apply NoDup_keys_flatten|].
    now destruct Hwf. }
  exists (dict_of_list
            (filter (fun kv => existsb (key_eqb (fst kv)) cols) base)).
  split.
  - unfold filter_results. rewrite nth_error_map.
    unfold env, dict in *. now rewrite Hr.
  - rewrite dict_of_list_distinct by (now apply NoDup_keys_filter).
    split; [now apply NoDup_keys_filter|].
    intros k. apply lookup_filter_keys.
Qed.

Lemma filter_results_columns_witness :
  exists r',
    nth_error
      (filter_results [[(KInt 0, VDict [(KStr "a", VInt 1); (KStr "b", VInt 2)])]]
                      (Some [KStr "a"]) true) 0
    = Some r' /\
    lookup (KStr "a") r' = Some (VInt 1) /\
    lookup (KStr "b") r' = None.
Proof.
  destruct (@filter_results_columns
              [[(KInt 0, VDict [(KStr "a", VInt 1); (KStr "b", VInt 2)])]]
              [KStr "a"] true 0
              [(KInt 0, VDict [(KStr "a", VInt 1); (KStr "b", VInt 2)])]
              eq_refl (or_introl eq_refl))
    as (r' & Hr' & _ & Hlookup).
  exists r'. split; [exact Hr'|].
  split; rewrite Hlookup; reflexivity.
Defined.

Lemma keys_dict_of_list (A : Type) (l : list (key * A)) (k : key) :
  In k (keys (dict_of_list l)) <-> In k (keys l).
Proof.
  rewrite !In_keys_lookup, lookup_dict_of_list, <- !In_keys_lookup.
  unfold keys. rewrite map_rev. symmetry. apply in_rev.
Qed.

Lemma nested_flatten (x : value) : nested x = flatten_nested_dict x.
Proof. now destruct x. Qed.

(** X20. Flattening makes every key accessible on the first level: the
    keys of the flattened value are the keys of its dictionaries at any
    depth below dictionaries and lists, and no other. *)
Theorem flatten_keys (nested_dict : value) (k : key) :
  In k (keys (flatten_nested_dict nested_dict)) <-> In k (all_keys nested_dict).
Proof.
  revert k.
  induction nested_dict as [| z | s | f | l IH | l IH | d IH] using value_ind;
    intros k; try reflexivity.
  - cbn [flatten_nested_dict all_keys]. rewrite keys_dict_of_list.
    unfold keys. rewrite flat_map_concat_map, concat_map, map_map.
    rewrite <- flat_map_concat_map, !in_flat_map.
    rewrite Forall_forall in IH.
    split; intros (x & Hx & Hk); exists x; (split; [assumption|]);
      now apply (IH x Hx).
  - rewrite flatten_dict_entries, keys_dict_of_list, keys_entries.
    cbn [all_keys]. rewrite in_flat_map. rewrite Forall_forall in IH.
    split; intros (kv & Hkv & Hk); exists kv; (split; [assumption|]).
    + destruct Hk as [Hk|Hk]; [now left|right].
      rewrite nested_flatten in Hk. now apply (IH kv Hkv).
    + destruct Hk as [Hk|Hk]; [now left|right].
      rewrite nested_flatten. now apply (IH kv Hkv).
Qed.

Lemma entries_leaves (d : dict value) :
  forallb (fun kv => leaf (snd kv)) d = true -> entries d = d.
Proof.
  induction d as [|[k v] d IH]; simpl; intros H; [reflexivity|].
  apply andb_true_iff in H as [Hv Hd]. fold (entries d). rewrite (IH Hd).
  now destruct v.
Qed.

(** X21. Without columns and without flattening the results are returned
    as they are; flattening leaves a result unchanged when none of its
    values is a dictionary or a list. *)
Theorem filter_results_unchanged (results : list env) :
  filter_results results None false = results /\
  ((forall r, In r results ->
              NoDup (keys r) /\
              forallb (fun kv => leaf (snd kv)) r = true) ->
   filter_results results None true = results).
Proof.
  unfold filter_results. split; [apply map_id|].
  intros Hflat. rewrite <- (map_id results) at 2. apply map_ext_in.
  intros r Hr. destruct (Hflat r Hr) as [Hnd Hleaf].
  rewrite flatten_dict_entries, entries_leaves by assumption.
  now apply dict_of_list_distinct.
Qed.

Lemma filter_results_unchanged_witness :
  filter_results [[(KInt 0, VInt 7); (KStr "a", VStr "x")]] None true
  = [[(KInt 0, VInt 7); (KStr "a", VStr "x")]].
Proof.
  apply (proj2 (filter_results_unchanged
                  [[(KInt 0, VInt 7); (KStr "a", VStr "x")]])).
  intros r [<-|[]]. split; [|reflexivity].
  apply (proj1 (distinct_NoDup [KInt 0; KStr "a"])). reflexivity.
Defined.

Lemma flatten_keys_witness :
  In (KStr "a")
     (keys (flatten_nested_dict
              (VDict [(KInt 0, VList [VDict [(KStr "a", VInt 1)]])]))).
Proof.
  apply (proj2 (flatten_keys
                  (VDict [(KInt 0, VList [VDict [(KStr "a", VInt 1)]])])
                  (KStr "a"))).
  right. left. reflexivity.
Defined.

(** ** More on the combinations and their results *)

(** The expansion keeps dictionaries well formed: in every
    combination of a specification in which no dictionary has a key
    twice, no dictionary has a key twice. *)
Lemma assemble_wf (specification : value) :
  wf specification = true ->
  forall c, In c (assemble specification) -> wf c = true.
Proof.
  induction specification as [| z | s | f | l IH | l IH | d IH] using value_ind;
    intros Hwf; try (intros c [<-|[]]; reflexivity); intros c Hc;
    cbn [wf] in Hwf; rewrite Forall_forall in IH.
  - rewrite forallb_forall in Hwf. cbn [assemble] in Hc.
    apply in_concat in Hc as (pool & Hpool & Hc).
    apply in_map_iff in Hpool as (x & <- & Hx). now apply (IH x Hx); auto.
  - rewrite forallb_forall in Hwf. cbn [assemble] in Hc.
    rewrite product_cross in Hc. apply in_map_iff in Hc as (items & <- & Hitems).
    apply In_cross in Hitems. cbn [wf]. apply forallb_forall.
    intros item Hitem.
    destruct (Forall2_In_l Hitems _ Hitem) as (pool & Hpool & Hin).
    apply in_map_iff in Hpool as (x & <- & Hx). now apply (IH x Hx); auto.
  - apply andb_true_iff in Hwf as [Hd Hwf]. rewrite forallb_forall in Hwf.
    rewrite assemble_mapping in Hc by now apply distinct_NoDup.
    apply in_map_iff in Hc as (item & <- & Hitem).
    assert (Hlen : length item = length (keys d)).
    { apply cross_item_length in Hitem. unfold keys.
      now rewrite !length_map in *. }
    cbn [wf]. rewrite keys_combine, Hd by assumption. cbn [andb].
    apply forallb_forall. intros [k v] Hkv. cbn [snd].
    apply in_combine_r in Hkv. apply In_cross in Hitem.
    destruct (Forall2_In_l Hitem _ Hkv) as (pool & Hpool & Hin).
    apply in_map_iff in Hpool as (kv & <- & Hkvd). now apply (IH kv Hkvd); auto.
Qed.

Lemma assemble_wf_witness :
  wf (VList [stage_1; stage_3; stage_4]) = true.
Proof.
  apply (@assemble_wf example_specification eq_refl).
  right. right. left. reflexivity.
Defined.

Lemma length_successes call (args : list value)
      (kwargs : list (string * value)) (specifications : list value) :
  length (successes call args kwargs specifications) <= length specifications.
Proof.
  induction specifications as [|c cs IH]; simpl; [lia|].
  destruct (outcome call args kwargs c); simpl; lia.
Qed.

(** X22. [transform] returns at most one result for every combination:
    the list it returns is not longer than the expansion of the
    specification. *)
Theorem transform_length call (specification : value)
        (args : list value) (kwargs : list (string * value))
        (rs : list env) :
  transform call specification args kwargs = Ok rs ->
  length rs <= length (assemble specification).
Proof.
  unfold transform. intros H.
  apply transform_loop_returns in H as [_ ->]. apply length_successes.
Qed.

Lemma transform_length_witness :
  length [[(KStr "pipeline", VList [stage_1]); (KInt 0, example_data);
           (KInt 1, VInt 6)]]
  <= length (assemble (VTuple [VList [stage_1];
                               VList [stage "id" [VStr "undeclared"] [VInt 2]]])).
Proof.
  apply (@transform_length
           demo_call
           (VTuple [VList [stage_1];
                    VList [stage "id" [VStr "undeclared"] [VInt 2]]])
           [example_data] []).
  reflexivity.
Defined.

(** X23. A specification that is a mapping gives no result, unless the
    mapping is empty: the flattening takes its keys for the stages, and
    the first of them fails with a [TypeError] in every combination. *)
Theorem transform_bare_mapping call (d : dict value)
        (args : list value) (kwargs : list (string * value)) :
  NoDup (keys d) ->
  d <> [] ->
  transform call (VDict d) args kwargs = Ok [].
Proof.
  intros Hnd Hd. unfold transform.
  assert (Hcs : forall c, In c (assemble (VDict d)) ->
                          contained call args kwargs c = true /\
                          outcome call args kwargs c = Raise TypeError).
  { intros c Hc. rewrite assemble_mapping in Hc by assumption.
    apply in_map_iff in Hc as (item & <- & Hitem).
    apply cross_item_length in Hitem. rewrite length_map in Hitem.
    unfold contained, outcome, construct, flatten_nested_list.
    cbn [iter bind].
    rewrite keys_combine by (unfold keys; now rewrite length_map).
    destruct d as [|[k v] d']; [congruence|]. cbn [keys map fst flat_map].
    unfold run_pipeline. destruct (clashes kwargs); [now split|].
    destruct k; cbn [of_key flatten_item app run_stages run_stage bind];
      now split. }
  assert (H : forall specs,
             (forall c, In c specs ->
                        contained call args kwargs c = true /\
                        outcome call args kwargs c = Raise TypeError) ->
             forallb (contained call args kwargs) specs = true /\
             successes call args kwargs specs = []).
  { induction specs as [|c specs IH]; intros Hall; [now split|].
    destruct IH as [IH1 IH2]; [intros; apply Hall; now right|].
    destruct (Hall c (or_introl eq_refl)) as [Hc1 Hc2].
    simpl. now rewrite Hc1, Hc2. }
  destruct (H _ Hcs) as [Hall Hnone].
  now rewrite transform_loop_contained, Hnone.
Qed.

Lemma transform_bare_mapping_witness :
  transform demo_call stage_1 [example_data] [] = Ok [].
Proof.
  apply (@transform_bare_mapping
           demo_call (stage_dict "sum" [VInt 0] [VInt 1]) [example_data] []).
  - apply (proj1 (distinct_NoDup [KStr "function"; KStr "in"; KStr "out"])).
    reflexivity.
  - discriminate.
Defined.

(** ** The combinations of a mapping *)

Lemma lookup_combine_chosen (d : dict value) (item : list value) (k : key)
      (v : value) :
  Forall2 (fun v kv => In v (assemble (snd kv))) item d ->
  lookup k (combine (keys d) item) = Some v ->
  exists x, lookup k d = Some x /\ In v (assemble x).
Proof.
  induction 1 as [|v0 [k0 x0] item d Hv0 _ IH]; simpl; [discriminate|].
  destruct (key_eqb k k0); [|exact IH].
  intros [= <-]. now exists x0.
Qed.

Lemma lookup_combine_pick (g : key -> value) (d : dict value) (k : key) :
  lookup k (combine (keys d) (map (fun kv => g (fst kv)) d))
  = if existsb (key_eqb k) (keys d) then Some (g k) else None.
Proof.
  induction d as [|[k0 x0] d IH]; simpl; [reflexivity|].
  destruct (key_eqb k k0) eqn:E; [|exact IH].
  apply key_eqb_eq in E. now subst.
Qed.

(** X3. The combinations of a mapping, taken as mappings (by their keys
    and the value under each key, whatever the order of their entries):
    every combination has the keys of the mapping and, under every key,
    one of the combinations of the value under that key; and for every
    such choice of values there is a combination that binds every key as
    the choice does. *)
Theorem assemble_mapping_members (d : dict value) :
  NoDup (keys d) ->
  (forall c,
      In c (assemble (VDict d)) ->
      exists d',
        c = VDict d' /\
        NoDup (keys d') /\
        (forall k, In k (keys d') <-> In k (keys d)) /\
        (forall k v,
            lookup k d' = Some v ->
            exists x, lookup k d = Some x /\ In v (assemble x))) /\
  (forall choice : dict value,
      (forall k, In k (keys choice) <-> In k (keys d)) ->
      (forall k v,
          lookup k choice = Some v ->
          exists x, lookup k d = Some x /\ In v (assemble x)) ->
      exists d',
        In (VDict d') (assemble (VDict d)) /\
        forall k, lookup k d' = lookup k choice).
Proof.
  intros Hnd. rewrite assemble_mapping by assumption.
  assert (Hpools :
            forall item,
              Forall2 (@In value) item (map (fun kv => assemble (snd kv)) d)
              <-> Forall2 (fun v kv => In v (assemble (snd kv))) item d).
  { intros item. clear Hnd. revert item.
    induction d as [|kv d IH]; intros item; simpl.
    - split; inversion 1; constructor.
    - split; inversion 1; subst; constructor; try assumption; now apply IH. }
  split.
  - intros c Hc. apply in_map_iff in Hc as (item & <- & Hitem).
    exists (combine (keys d) item).
    assert (Hlen : length item = length (keys d)).
    { apply cross_item_length in Hitem. unfold keys.
      now rewrite !length_map in *. }
    rewrite keys_combine by assumption.
    split; [reflexivity|]. split; [assumption|]. split; [reflexivity|].
    intros k v. apply lookup_combine_chosen. now apply Hpools, In_cross.
  - intros choice Hkeys Hvalues.
    set (g := fun k => match lookup k choice with
                       | Some v => v
                       | None => VNone
                       end).
    exists (combine (keys d) (map (fun kv => g (fst kv)) d)). split.
    + apply in_map_iff. exists (map (fun kv => g (fst kv)) d).
      split; [reflexivity|]. apply In_cross, Hpools.
      assert (Hall : forall kv, In kv d -> In (g (fst kv)) (assemble (snd kv))).
      { intros [k x] Hkv. cbn [fst snd]. unfold g.
        assert (Hk : In k (keys choice)).
        { apply Hkeys. change k with (fst (k, x)). now apply in_map. }
        apply In_keys_lookup in Hk.
        destruct (lookup k choice) as [v|] eqn:Hv; [|congruence].
        destruct (Hvalues k v Hv) as (x' & Hx' & Hin).
        rewrite (In_lookup _ _ _ Hnd Hkv) in Hx'. now injection Hx' as <-. }
      clear Hnd Hkeys Hvalues Hpools.
      induction d as [|kv d IH]; simpl; constructor.
      * apply Hall. now left.
      * apply IH. intros kv' Hkv'. apply Hall. now right.
    + intros k. rewrite lookup_combine_pick.
      destruct (existsb (key_eqb k) (keys d)) eqn:Hk.
      * apply existsb_key_In, Hkeys, In_keys_lookup in Hk. unfold g.
        now destruct (lookup k choice).
      * apply existsb_key_notin in Hk. symmetry. apply lookup_None.
        intros Hin. apply Hk. now apply Hkeys.
Qed.

Lemma assemble_mapping_members_witness :
  exists d',
    In (VDict d')
       (assemble (VDict [(KStr "x", VTuple [VInt 1; VInt 2]);
                         (KStr "y", VTuple [VInt 3; VInt 4])])) /\
    forall k, lookup k d' = lookup k [(KStr "y", VInt 3); (KStr "x", VInt 2)].
Proof.
  apply (proj2 (@assemble_mapping_members
                  [(KStr "x", VTuple [VInt 1; VInt 2]);
                   (KStr "y", VTuple [VInt 3; VInt 4])]
                  (proj1 (distinct_NoDup [KStr "x"; KStr "y"]) eq_refl))
           [(KStr "y", VInt 3); (KStr "x", VInt 2)]).
  - intros k. simpl. tauto.
  - intros k v. simpl.
    destruct (key_eqb k (KStr "y")) eqn:Ey.
    + apply key_eqb_eq in Ey. subst k. intros [= <-].
      exists (VTuple [VInt 3; VInt 4]). split; [reflexivity|now left].
    + destruct (key_eqb k (KStr "x")) eqn:Ex; [|discriminate].
      apply key_eqb_eq in Ex. subst k. intros [= <-].
      exists (VTuple [VInt 1; VInt 2]). split; [reflexivity|right; now left].
Defined.

(** ** Printing of a caught exception *)

(** X24. The handler of [transform] prints the exception it caught: when
    the loop goes on after each of the combinations before it and the
    execution of a combination raises an exception under [Exception]
    whose printing raises, [transform] raises what the printing raises,
    and the results collected so far are lost. *)
Theorem transform_print_failure call (specification : value)
        (args : list value) (kwargs : list (string * value))
        (pre post : list value) (c : value) (pipeline : list value)
        (e raised : exn) :
  assemble specification = pre ++ c :: post ->
  forallb (contained call args kwargs) pre = true ->
  construct c = Ok pipeline ->
  run_pipeline call pipeline args kwargs = Raise e ->
  is_Exception e = true ->
  print_exn e = Raise raised ->
  transform call specification args kwargs = Raise raised.
Proof.
  intros Hspec Hpre Hc Hrun He Hprint. unfold transform.
  rewrite Hspec, transform_loop_prefix by assumption.
  cbn [transform_loop]. rewrite Hc. cbn [bind]. now rewrite Hrun, He, Hprint.
Qed.

Lemma transform_print_failure_witness :
  transform demo_call
            (VTuple [VList [stage_1]; VList [stage "unicode" [] []];
                     VList [stage_5]])
            [example_data] []
  = Raise UnicodeEncodeError.
Proof.
  apply (@transform_print_failure
           demo_call
           (VTuple [VList [stage_1]; VList [stage "unicode" [] []];
                    VList [stage_5]])
           [example_data] [] [VList [stage_1]] [VList [stage_5]]
           (VList [stage "unicode" [] []]) [stage "unicode" [] []]
           (Unprintable "unicode" UnicodeEncodeError) UnicodeEncodeError
           eq_refl eq_refl eq_refl eq_refl eq_refl eq_refl).
Defined.
